(** * uncss: the selector filter and the rule pruner of [lib/lib.js]

    A shallow embedding of [src/lib/lib.js].  JavaScript strings are
    sequences of UTF-16 code units; the style sheet nodes are objects of
    a store, because [filterUnusedRules] assigns to their fields; the
    RegExps of the ignore list that have the flag [g] or [y] are
    objects too, because [test] reads and writes their [lastIndex]. *)

From Stdlib Require Import NArith String Ascii.
From stdpp Require Import gmap list.

#[local] Set Warnings "-clear-no-such-hyp".

Local Open Scope N_scope.
Local Open Scope list_scope.

(** ** Strings *)

Module Js.

(** A JavaScript string: its UTF-16 code units. *)
Definition jsstring : Type := list N.

(** The code units of an ASCII literal. *)
Definition lit (s : string) : jsstring :=
  List.map N_of_ascii (list_ascii_of_string s).

Definition quote : N := 34.
Definition colon : N := 58.
Definition space : N := 32.
Definition slash : N := 47.
Definition star : N := 42.
Definition at_sign : N := 64.

(** The class [\s] of a regular expression: white space and line
    terminators, by their code units. *)
Definition is_space (c : N) : bool :=
  (c =? 9) || (c =? 10) || (c =? 11) || (c =? 12) || (c =? 13) || (c =? 32)
  || (c =? 160) || (c =? 5760) || ((8192 <=? c) && (c <=? 8202))
  || (c =? 8232) || (c =? 8233) || (c =? 8239) || (c =? 8287)
  || (c =? 12288) || (c =? 65279).

(** What [.] does not match: the line terminators. *)
Definition is_line_terminator (c : N) : bool :=
  (c =? 10) || (c =? 13) || (c =? 8232) || (c =? 8233).

(** [String(undefined)], what [replace] inserts when it is called
    without a replacement. *)
Definition undefined_text : jsstring := lit "undefined".

Definition eqb (a b : jsstring) : bool := bool_decide (a = b).

(** [a.join(' ')] *)
Fixpoint join (sep : jsstring) (parts : list jsstring) : jsstring :=
  match parts with
  | [] => []
  | [p] => p
  | p :: rest => p ++ sep ++ join sep rest
  end.

(** [s.match(/^http/)] is not null *)
Definition starts_with (prefix s : jsstring) : bool :=
  eqb (take (length prefix) s) prefix.

End Js.

Import Js.

(** ** The regular expressions of the normalisation *)

Module Regex.

(** [/\/\*.*?\*\//] entered after its opening [/*]: the lazy [.*?]
    stops at the first [*/] and crosses no line terminator.  The result
    is what follows the match. *)
Fixpoint comment_end (s : jsstring) : option jsstring :=
  match s with
  | [] => None
  | c :: s' =>
      match s' with
      | d :: rest =>
          if (c =? star) && (d =? slash) then Some rest
          else if is_line_terminator c then None
          else comment_end s'
      | [] => None
      end
  end.

(** [s.replace(/\/\*.*?\*\//)]: the regular expression has no [g] flag,
    so only the leftmost match is replaced, and the call has no second
    argument, so the replacement is the text of [undefined]. *)
Fixpoint replace_comment (s : jsstring) : jsstring :=
  match s with
  | [] => []
  | c :: s' =>
      match s' with
      | d :: rest =>
          if (c =? slash) && (d =? star) then
            match comment_end rest with
            | Some after => undefined_text ++ after
            | None => c :: replace_comment s'
            end
          else c :: replace_comment s'
      | [] => [c]
      end
  end.

Definition flush (cur : jsstring) : list jsstring :=
  match cur with
  | [] => []
  | _ => [rev cur]
  end.

Definition has_quote (s : jsstring) : bool := existsb (N.eqb quote) s.

(** All the matches of [/(?:[^X"]+|"[^"]*")+/g] in [s], where [stop]
    is the class [X].  One match is a longest run of pieces, a piece
    being either characters outside [X] other than the quote, or a
    quoted text ["..."]; a quote opens a quoted text exactly when
    another quote follows it.  [inq] says that the scan is inside a
    quoted text, [cur] is the current match, reversed.  A character
    that can neither start nor extend a match ends the current match
    and is skipped. *)
Fixpoint scan (stop : N -> bool) (inq : bool) (cur : jsstring)
    (s : jsstring) : list jsstring :=
  match s with
  | [] => flush cur
  | c :: s' =>
      if inq then scan stop (negb (c =? quote)) (c :: cur) s'
      else if c =? quote then
        if has_quote s' then scan stop true (c :: cur) s'
        else flush cur ++ scan stop false [] s'
      else if stop c then flush cur ++ scan stop false [] s'
      else scan stop false (c :: cur) s'
  end.

(** [s.match(re)] for a global [re]: [null] when nothing matches. *)
Definition match_g (stop : N -> bool) (s : jsstring)
    : option (list jsstring) :=
  match scan stop false [] s with
  | [] => None
  | ms => Some ms
  end.

(** [/(?:[^\s"]+|"[^"]*")+/g] *)
Definition re_tokens : jsstring -> option (list jsstring) :=
  match_g is_space.

(** [/(?:[^ :"]+|"[^"]*")+/g] *)
Definition re_before_pseudo : jsstring -> option (list jsstring) :=
  match_g (fun c => (c =? space) || (c =? colon)).

End Regex.

(** ** Exceptions *)

(** The exceptions of the modelled code: the [TypeError] of a property
    read on [null]. *)
Inductive exn : Type := TypeError.

Inductive result (A : Type) : Type :=
  | Ok (a : A)
  | Raise (e : exn).

Arguments Ok {A} a.
Arguments Raise {A} e.

Definition rbind {A B} (r : result A) (k : A -> result B) : result B :=
  match r with
  | Ok a => k a
  | Raise e => Raise e
  end.

Notation "'let!' x ':=' r 'in' k" := (rbind r (fun x => k))
  (at level 10, x name, r at level 100, k at level 200).

(** [a.map(f)] for a callback that may raise: the elements are visited
    in order and the first exception ends the call. *)
Fixpoint array_map {A B} (f : A -> result B) (a : list A) : result (list B) :=
  match a with
  | [] => Ok []
  | x :: a' =>
      let! y := f x in let! ys := array_map f a' in Ok (y :: ys)
  end.

(** ** RegExp objects *)

Definition loc : Type := positive.

(** The [lastIndex] of the RegExp objects that have the flag [g] or
    [y], by the reference of the object; it is [0] for an object that
    no test has touched.  [test] reads and writes it, so it is the
    state that the selector filter threads. *)
Abbreviation regexps := (gmap loc nat).

Definition last_index (st : gmap loc nat) (r : loc) : nat :=
  default O (st !! r).

(** A computation that may raise and that reads and writes the
    [lastIndex] of RegExp objects; what it wrote before raising
    stays. *)
Definition M (A : Type) : Type := gmap loc nat -> result A * gmap loc nat.

Definition mret {A} (a : A) : M A := fun st => (Ok a, st).

Definition mbind {A B} (m : M A) (k : A -> M B) : M B :=
  fun st =>
    match m st with
    | (Ok a, st1) => k a st1
    | (Raise e, st1) => (Raise e, st1)
    end.

Notation "'do!' x ':=' m 'in' k" := (mbind m (fun x => k))
  (at level 10, x name, m at level 100, k at level 200).

(** [a.map(f)] and [a.filter(f)] for a callback that may raise and
    that tests RegExps: the elements are visited in order. *)
Fixpoint array_map_m {A B} (f : A -> M B) (a : list A) : M (list B) :=
  match a with
  | [] => mret []
  | x :: a' =>
      do! y := f x in do! ys := array_map_m f a' in mret (y :: ys)
  end.

Fixpoint array_filter {A} (f : A -> M bool) (a : list A) : M (list A) :=
  match a with
  | [] => mret []
  | x :: a' =>
      do! b := f x in
      do! ys := array_filter f a' in mret (if b then x :: ys else ys)
  end.

(** ** Pages and ignore lists *)

(** An element as cheerio exposes it: its name and its [attribs]. *)
Record element : Type := Element {
  tag : jsstring;
  attribs : gmap jsstring jsstring
}.

(** A loaded page is the function [doms[i]]: it takes a selector and
    returns the collection of the matched elements, or raises ([None])
    on a selector that the engine cannot read.  A query changes
    nothing: the page is a function of the selector. *)
Definition dom : Type := jsstring -> option (list element).

(** An entry of the [ignore] array: a string or a [RegExp].
    A RegExp without the flags [g] and [y] is given by its [test], a
    function of the selector, since such a test starts at index [0]
    whatever [lastIndex] is.  A RegExp with the flag [g] or [y] is the
    object [r], whose [lastIndex] is in the state; [exec i s] is the
    index after the match of its pattern in [s] found from index [i],
    and [None] when there is none. *)
Inductive ignore_entry : Type :=
  | IgnoreString (s : jsstring)
  | IgnoreRegExp (test : jsstring -> bool)
  | IgnoreRegExpG (r : loc) (exec : nat -> jsstring -> option nat).

(** [ignore.indexOf(selector) !== -1] *)
Definition ignore_has (ignore : list ignore_entry) (selector : jsstring)
    : bool :=
  existsb (fun e => match e with
                    | IgnoreString s => Js.eqb s selector
                    | _ => false
                    end) ignore.

(** [r.test(selector)] for a RegExp with the flag [g] or [y]: the
    match is looked for from [lastIndex]; a success moves [lastIndex]
    after the match, a failure sets it to [0]. *)
Definition test_g (r : loc) (exec : nat -> jsstring -> option nat)
    (selector : jsstring) (st : gmap loc nat) : bool * gmap loc nat :=
  let i := last_index st r in
  if Nat.ltb (length selector) i then (false, <[r := O]> st)
  else match exec i selector with
       | Some e => (true, <[r := e]> st)
       | None => (false, <[r := O]> st)
       end.

(** The loop over [j]: [_.isRegExp(ignore[j]) && ignore[j].test(selector)],
    which stops at the first test that succeeds. *)
Fixpoint ignore_tests (ignore : list ignore_entry) (selector : jsstring)
    (st : gmap loc nat) : bool * gmap loc nat :=
  match ignore with
  | [] => (false, st)
  | IgnoreString _ :: rest => ignore_tests rest selector st
  | IgnoreRegExp test :: rest =>
      if test selector then (true, st) else ignore_tests rest selector st
  | IgnoreRegExpG r exec :: rest =>
      let (hit, st1) := test_g r exec selector st in
      if hit then (true, st1) else ignore_tests rest selector st1
  end.

(** ** filterUnusedSelectors *)

(** The callback of [.map] in the normalisation:
    [str.match(/(?:[^ :"]+|"[^"]*")+/g)[0]]. *)
Definition before_pseudo (str : jsstring) : result jsstring :=
  match Regex.re_before_pseudo str with
  | Some (m :: _) => Ok m
  | _ => Raise TypeError
  end.

(** The value assigned to [temp]. *)
Definition normalize (selector : jsstring) : result jsstring :=
  match Regex.re_tokens (Regex.replace_comment selector) with
  | None => Raise TypeError
  | Some tokens =>
      let! parts := array_map before_pseudo tokens in Ok (join [space] parts)
  end.

(** [match.length !== 0] *)
Definition nonempty (m : list element) : bool :=
  negb (Nat.eqb (length m) 0).

(** The loop over [i], from the snapshot at hand to the last one. *)
Fixpoint match_doms (doms : list dom) (selector : jsstring) : result bool :=
  match doms with
  | [] => Ok false
  | d :: rest =>
      match d selector with
      | Some m => if nonempty m then Ok true else match_doms rest selector
      | None =>
          let! temp := normalize selector in
          match d temp with
          | None => Ok true
          | Some m => if nonempty m then Ok true else match_doms rest selector
          end
      end
  end.

(** [selector[0] === '@'] *)
Definition is_at_rule (selector : jsstring) : bool :=
  match selector with
  | c :: _ => c =? at_sign
  | [] => false
  end.

(** The callback of [selectors.filter]. *)
Definition keep_selector (doms : list dom) (ignore : list ignore_entry)
    (selector : jsstring) : M bool :=
  fun st =>
    if is_at_rule selector then (Ok true, st)
    else if ignore_has ignore selector then (Ok true, st)
    else
      let (hit, st1) := ignore_tests ignore selector st in
      if hit then (Ok true, st1) else (match_doms doms selector, st1).

Definition filterUnusedSelectors (doms : list dom) (selectors : list jsstring)
    (ignore : list ignore_entry) : M (list jsstring) :=
  array_filter (keep_selector doms ignore) selectors.

(** ** The style sheet in the store *)

(** [filterUnusedRules] assigns to the fields [selectors] and [rules]
    of the nodes it is given, so a node is an object of a store and a
    [rules] array holds references.  The arrays themselves are never
    updated in place ([filter] returns a new array): they are values. *)

Definition declaration : Type := (jsstring * jsstring)%type.

(** A node of the tree of [css.parse]: [type === 'rule'],
    [type === 'media'], or a node of another type, which the code never
    inspects. *)
Inductive node : Type :=
  | RuleNode (selectors : list jsstring) (declarations : list declaration)
  | MediaNode (media : jsstring) (rules : list loc)
  | OtherNode (type : jsstring) (body : jsstring).

Abbreviation store := (gmap loc node).

(** What a call does: it returns, raises, or runs out of fuel.  It
    leaves a store of nodes and a state of the RegExp objects. *)
Inductive outcome (A : Type) : Type :=
  | Returns (a : A) (h : store) (st : gmap loc nat)
  | Throws (e : exn) (h : store) (st : gmap loc nat)
  | OutOfFuel.

Arguments Returns {A} a h st.
Arguments Throws {A} e h st.
Arguments OutOfFuel {A}.

(** [rule.selectors = v] *)
Definition set_selectors (rule : loc) (v : list jsstring) (h : store) : store :=
  match h !! rule with
  | Some (RuleNode _ d) => <[rule := RuleNode v d]> h
  | _ => h
  end.

(** [rule.rules = v] *)
Definition set_rules (rule : loc) (v : list loc) (h : store) : store :=
  match h !! rule with
  | Some (MediaNode m _) => <[rule := MediaNode m v]> h
  | _ => h
  end.

(** [rules.forEach(f)] *)
Fixpoint forEach (f : loc -> store -> gmap loc nat -> outcome unit)
    (rules : list loc) (h : store) (st : gmap loc nat) : outcome unit :=
  match rules with
  | [] => Returns tt h st
  | rule :: rest =>
      match f rule h st with
      | Returns _ h1 st1 => forEach f rest h1 st1
      | Throws e h1 st1 => Throws e h1 st1
      | OutOfFuel => OutOfFuel
      end
  end.

(** The callback of the final [rules.filter], which reads the nodes as
    [forEach] left them. *)
Definition survives (h : store) (rule : loc) : bool :=
  match h !! rule with
  | Some (RuleNode [] _) => false
  | Some (MediaNode _ []) => false
  | _ => true
  end.

(** The callback of [rules.forEach]; [recur] is the recursive call of
    [filterUnusedRules] on a nested array.  A reference to no object
    stands for an [undefined] entry, whose [type] cannot be read. *)
Definition visit (doms : list dom) (ignore : list ignore_entry)
    (recur : list loc -> store -> gmap loc nat -> outcome (list loc))
    (rule : loc) (h : store) (st : gmap loc nat) : outcome unit :=
  match h !! rule with
  | None => Throws TypeError h st
  | Some (RuleNode selectors _) =>
      match filterUnusedSelectors doms selectors ignore st with
      | (Ok v, st1) => Returns tt (set_selectors rule v h) st1
      | (Raise e, st1) => Throws e h st1
      end
  | Some (MediaNode _ nested) =>
      match recur nested h st with
      | Returns v h1 st1 => Returns tt (set_rules rule v h1) st1
      | Throws e h1 st1 => Throws e h1 st1
      | OutOfFuel => OutOfFuel
      end
  | Some (OtherNode _ _) => Returns tt h st
  end.

(** [filterUnusedRules(doms, {rules: rules}, ignore).stylesheet.rules].
    The recursion follows references of the store, hence the fuel: one
    unit for each level of nesting. *)
Fixpoint filterUnusedRules (fuel : nat) (doms : list dom) (rules : list loc)
    (ignore : list ignore_entry) (h : store) (st : gmap loc nat)
    : outcome (list loc) :=
  match fuel with
  | O => OutOfFuel
  | S fuel' =>
      let recur nested h st :=
        filterUnusedRules fuel' doms nested ignore h st in
      match forEach (visit doms ignore recur) rules h st with
      | Returns _ h1 st1 => Returns (List.filter (survives h1) rules) h1 st1
      | Throws e h1 st1 => Throws e h1 st1
      | OutOfFuel => OutOfFuel
      end
  end.

(** ** The style sheet as a tree *)

Module Tree.

(** The data model of the specification: a rule, a conditional block
    with its nested sequence, or another node. *)
#[warnings="-register-all"]
Inductive rule : Type :=
  | Rule (selectors : list jsstring) (declarations : list declaration)
  | Media (media : jsstring) (rules : list rule)
  | Other (type : jsstring) (body : jsstring).

(** Step 3 of the pruner: what the final filter keeps. *)
Definition kept (r : rule) : bool :=
  match r with
  | Rule [] _ => false
  | Media _ [] => false
  | _ => true
  end.

(** The nodes of a tree with the empty ones taken out of every
    nested sequence. *)
Fixpoint strip (r : rule) : rule :=
  match r with
  | Media c rs => Media c (List.filter kept (List.map strip rs))
  | _ => r
  end.

Section Prune.
Variable doms : list dom.
Variable ignore : list ignore_entry.

(** Steps 1 and 2: a rule gets its filtered selectors, a conditional
    block its pruned nested sequence. *)
Fixpoint update (r : rule) : M rule :=
  match r with
  | Rule s d =>
      do! s' := filterUnusedSelectors doms s ignore in mret (Rule s' d)
  | Media c rs =>
      do! us :=
        (fix each (rs : list rule) : M (list rule) :=
           match rs with
           | [] => mret []
           | r :: rs' =>
               do! u := update r in do! us := each rs' in mret (u :: us)
           end) rs in
      mret (Media c (List.filter kept us))
  | Other t b => mret (Other t b)
  end.

Definition update_all (rs : list rule) : M (list rule) :=
  array_map_m update rs.

(** [prune(tree, doms, ignoreList)] *)
Definition prune (rs : list rule) : M (list rule) :=
  do! us := update_all rs in mret (List.filter kept us).

(** The input as the call leaves it: every rule with its filtered
    selectors, and every node still in its sequence. *)
Fixpoint mark (r : rule) : M rule :=
  match r with
  | Rule s d =>
      do! s' := filterUnusedSelectors doms s ignore in mret (Rule s' d)
  | Media c rs =>
      do! ms :=
        (fix each (rs : list rule) : M (list rule) :=
           match rs with
           | [] => mret []
           | r :: rs' =>
               do! m := mark r in do! ms := each rs' in mret (m :: ms)
           end) rs in
      mret (Media c ms)
  | Other t b => mret (Other t b)
  end.

Definition mark_all (rs : list rule) : M (list rule) :=
  array_map_m mark rs.

(** A tree that pruning leaves as it is, whatever the state of the
    RegExp objects. *)
#[warnings="-register-all"]
Inductive settled : rule -> Prop :=
  | settled_rule s d :
      (forall st, filterUnusedSelectors doms s ignore st = (Ok s, st)) ->
      s <> [] -> settled (Rule s d)
  | settled_media c rs :
      Forall settled rs -> rs <> [] -> settled (Media c rs)
  | settled_other t b : settled (Other t b).

End Prune.

(** The nesting depth of conditional blocks. *)
Fixpoint height (r : rule) : nat :=
  match r with
  | Media _ rs => S (list_max (List.map height rs))
  | _ => O
  end.

Definition heights (rs : list rule) : nat := list_max (List.map height rs).

End Tree.

(** ** A tree laid out in the store *)

(** [repr h ls rs F]: the references [ls] lead, in the store [h], to
    the nodes of the trees [rs]; [F] is the set of the objects of these
    trees, none of which is shared. *)
Inductive repr (h : store) : list loc -> list Tree.rule -> gset loc -> Prop :=
  | repr_nil : repr h [] [] ∅
  | repr_cons l ls r rs F G :
      repr_node h l r F -> repr h ls rs G -> F ## G ->
      repr h (l :: ls) (r :: rs) (F ∪ G)
with repr_node (h : store) : loc -> Tree.rule -> gset loc -> Prop :=
  | repr_rule l s d :
      h !! l = Some (RuleNode s d) -> repr_node h l (Tree.Rule s d) {[l]}
  | repr_media l c ls rs F :
      h !! l = Some (MediaNode c ls) -> repr h ls rs F -> l ∉ F ->
      repr_node h l (Tree.Media c rs) ({[l]} ∪ F)
  | repr_other l t b :
      h !! l = Some (OtherNode t b) -> repr_node h l (Tree.Other t b) {[l]}.

Scheme repr_mut := Minimality for repr Sort Prop
  with repr_node_mut := Minimality for repr_node Sort Prop.
Combined Scheme repr_both from repr_mut, repr_node_mut.

(** [updated h h' ls rs ms]: the nodes of the trees [rs], which the
    references [ls] lead to in the store [h], are in the store [h'] the
    nodes of [ms] under the same references: a rule holds the selectors
    that [ms] gives it and its declarations, a media block holds those
    of its nested references that survive in [h'], every nested node is
    updated in the same way, dropped or not, and a node of another type
    is as it was. *)
Inductive updated (h h' : store)
    : list loc -> list Tree.rule -> list Tree.rule -> Prop :=
  | updated_nil : updated h h' [] [] []
  | updated_cons l ls r rs m ms :
      updated_node h h' l r m -> updated h h' ls rs ms ->
      updated h h' (l :: ls) (r :: rs) (m :: ms)
with updated_node (h h' : store) : loc -> Tree.rule -> Tree.rule -> Prop :=
  | updated_rule l s s' d :
      h !! l = Some (RuleNode s d) -> h' !! l = Some (RuleNode s' d) ->
      updated_node h h' l (Tree.Rule s d) (Tree.Rule s' d)
  | updated_media l c ls rs ms :
      h !! l = Some (MediaNode c ls) ->
      h' !! l = Some (MediaNode c (List.filter (survives h') ls)) ->
      updated h h' ls rs ms ->
      updated_node h h' l (Tree.Media c rs) (Tree.Media c ms)
  | updated_other l t b :
      h !! l = Some (OtherNode t b) -> h' !! l = Some (OtherNode t b) ->
      updated_node h h' l (Tree.Other t b) (Tree.Other t b).

Scheme updated_mut := Minimality for updated Sort Prop
  with updated_node_mut := Minimality for updated_node Sort Prop.
Combined Scheme updated_both from updated_mut, updated_node_mut.

(** ** extractStylesheets *)

(** The query engine behind a loaded page, on the selectors that
    [extractStylesheets] builds: a comma-separated group of compound
    selectors, each an optional element name followed by attribute
    tests [[name="value"]] and negations [:not(name)] of an element
    name.  A quoted value stands on one line and ends at the first
    quote that closes the test; it is taken as written (the escapes of
    a value with a backslash are not modelled).  The model covers no
    other selector: it takes every other one as rejected. *)
Module Cheerio.

Inductive simple : Type :=
  | Tag (name : jsstring)
  | AttrEq (name value : jsstring)
  | NotTag (name : jsstring).

Definition is_name_char (c : N) : bool :=
  ((97 <=? c) && (c <=? 122)) || ((65 <=? c) && (c <=? 90))
  || ((48 <=? c) && (c <=? 57)) || (c =? 45) || (c =? 95).

Fixpoint span (p : N -> bool) (s : jsstring) : jsstring * jsstring :=
  match s with
  | c :: s' =>
      if p c then let (a, b) := span p s' in (c :: a, b) else ([], s)
  | [] => ([], [])
  end.

Definition strip_prefix (p s : jsstring) : option jsstring :=
  if starts_with p s then Some (drop (length p) s) else None.

Definition cons_simple (x : simple) (r : option (list simple * jsstring))
    : option (list simple * jsstring) :=
  match r with
  | Some (xs, rest) => Some (x :: xs, rest)
  | None => None
  end.

(** What closes an attribute test after the closing quote of its
    value: white space, then [i] or nothing, then the bracket. *)
Definition attr_close (s : jsstring) : option jsstring :=
  match snd (span is_space s) with
  | 93 :: rest => Some rest (* ] *)
  | 105 :: 93 :: rest => Some rest (* i] *)
  | _ => None
  end.

(** The value of an attribute test, after its opening quote: the
    shortest text without line terminator that a quote and the end of
    the test follow.  The result is the value and what follows the
    test. *)
Fixpoint attr_value (s : jsstring) : option (jsstring * jsstring) :=
  match s with
  | [] => None
  | c :: s' =>
      let longer :=
        match attr_value s' with
        | Some (v, rest) => Some (c :: v, rest)
        | None => None
        end in
      if c =? quote then
        match attr_close s' with
        | Some rest => Some ([], rest)
        | None => longer
        end
      else if is_line_terminator c then None
      else longer
  end.

(** The attribute tests and negations after the element name. *)
Fixpoint parse_simples (fuel : nat) (s : jsstring)
    : option (list simple * jsstring) :=
  match fuel with
  | O => None
  | S fuel' =>
      match s with
      | 91 :: s1 => (* [ *)
          let (name, s2) := span is_name_char s1 in
          match name, strip_prefix (lit "=" ++ [quote]) s2 with
          | _ :: _, Some s3 =>
              match attr_value s3 with
              | Some (value, s4) =>
                  cons_simple (AttrEq name value) (parse_simples fuel' s4)
              | None => None
              end
          | _, _ => None
          end
      | 58 :: s1 => (* : *)
          match strip_prefix (lit "not(") s1 with
          | Some s2 =>
              let (name, s3) := span is_name_char s2 in
              match name, s3 with
              | _ :: _, 41 :: s4 => (* ) *)
                  cons_simple (NotTag name) (parse_simples fuel' s4)
              | _, _ => None
              end
          | None => None
          end
      | _ => Some ([], s)
      end
  end.

Definition parse_compound (s : jsstring) : option (list simple * jsstring) :=
  let (name, s1) := span is_name_char s in
  match parse_simples (S (length s1)) s1 with
  | Some (xs, rest) =>
      match name, xs with
      | [], [] => None
      | [], _ => Some (xs, rest)
      | _, _ => Some (Tag name :: xs, rest)
      end
  | None => None
  end.

Fixpoint parse_group (fuel : nat) (s : jsstring)
    : option (list (list simple)) :=
  match fuel with
  | O => None
  | S fuel' =>
      match parse_compound (snd (span is_space s)) with
      | Some (c, rest) =>
          match snd (span is_space rest) with
          | [] => Some [c]
          | 44 :: rest' => (* , *)
              match parse_group fuel' rest' with
              | Some cs => Some (c :: cs)
              | None => None
              end
          | _ => None
          end
      | None => None
      end
  end.

Definition parse (s : jsstring) : option (list (list simple)) :=
  parse_group (S (length s)) s.

Definition matches_simple (e : element) (x : simple) : bool :=
  match x with
  | Tag name => Js.eqb (tag e) name
  | AttrEq name value =>
      match attribs e !! name with
      | Some v => Js.eqb v value
      | None => false
      end
  | NotTag name => negb (Js.eqb (tag e) name)
  end.

Definition matches (e : element) (group : list (list simple)) : bool :=
  existsb (forallb (matches_simple e)) group.

(** The page whose elements are [page], in document order. *)
Definition load (page : list element) : dom :=
  fun selector =>
    match parse selector with
    | Some group => Some (List.filter (fun e => matches e group) page)
    | None => None
    end.

End Cheerio.

(** [_.union(a, b)]: the values of both arrays, each once, in the order
    of their first occurrence. *)
Fixpoint uniq (seen : list jsstring) (a : list jsstring) : list jsstring :=
  match a with
  | [] => []
  | x :: a' =>
      if existsb (Js.eqb x) seen then uniq seen a'
      else x :: uniq (x :: seen) a'
  end.

Definition union (a b : list jsstring) : list jsstring := uniq [] (a ++ b).

(** ['link[rel="stylesheet"]'] *)
Definition link_stylesheet : jsstring :=
  lit "link[rel=" ++ [quote] ++ lit "stylesheet" ++ [quote] ++ lit "]".

(** The selector that [extractStylesheets] queries. *)
Definition media_selector (options_media : list jsstring) : jsstring :=
  let media := union [lit "screen"; lit "all"] options_media in
  link_stylesheet ++ lit ":not(media)," ++
  join (lit ", ")
    (List.map (fun selector =>
       link_stylesheet ++ lit "[media=" ++ [quote] ++ selector ++ [quote]
       ++ lit "]") media).

(** [extractStylesheets(dom, options)], with [options.media] for
    [options]; an element without [href] gives [undefined] ([None]),
    and the result is [None] when the query raises. *)
Definition extractStylesheets (d : dom) (options_media : list jsstring)
    : option (list (option jsstring)) :=
  match d (media_selector options_media) with
  | Some stylesheets =>
      Some (List.map (fun x => attribs x !! lit "href") stylesheets)
  | None => None
  end.

(** ** mapReadFiles *)

(** What the iterator of [async.map] does with one file name: it sends
    a request, reads a file, or fails at once with a message. *)
Inductive action : Type :=
  | Request (url : jsstring) (headers : list (jsstring * jsstring))
  | ReadFile (path : jsstring) (encoding : jsstring)
  | Done (err : jsstring).

(** What the iterator reads of its environment: [fs.existsSync] and
    [path.join(process.cwd(), _)]. *)
Record world : Type := World {
  exists_sync : jsstring -> bool;
  join_cwd : jsstring -> jsstring
}.

Definition read_one (w : world) (filename : jsstring) : action :=
  if starts_with (lit "http") filename then
    Request filename [(lit "User-Agent", lit "UnCSS")]
  else if exists_sync w filename then ReadFile filename (lit "utf8")
  else Done (lit "Error - could not open: " ++ join_cwd w filename).

(** [async.map] calls the iterator on every file name, in order. *)
Definition mapReadFiles (w : world) (files : list jsstring) : list action :=
  List.map (read_one w) files.

(** ** The pruner on the store and on the tree *)

(** The stores [h] and [h'] agree outside [F]. *)
Definition same_outside (F : gset loc) (h h' : store) : Prop :=
  forall l, l ∉ F -> h' !! l = h !! l.

Section Simulation.
Variable doms : list dom.
Variable ignore : list ignore_entry.

(** What a call on the layout of [rs] does: it raises when the
    update of the tree does, and otherwise returns, leaves every node
    of the tree updated under its reference, and touches no other
    node; in both cases it leaves the RegExp objects as the update of
    the tree does. *)
Definition simulates (rs : list Tree.rule) (F : gset loc) (h : store)
    (st : gmap loc nat) (ls : list loc) (o : outcome (list loc)) : Prop :=
  match Tree.mark_all doms ignore rs st with
  | (Ok ms, st') =>
      exists h',
        o = Returns (List.filter (survives h') ls) h' st' /\
        updated h h' ls rs ms /\ same_outside F h h'
  | (Raise e, st') => exists h', o = Throws e h' st' /\ same_outside F h h'
  end.

Definition simulates_each (rs : list Tree.rule) (F : gset loc) (h : store)
    (st : gmap loc nat) (ls : list loc) (o : outcome unit) : Prop :=
  match Tree.mark_all doms ignore rs st with
  | (Ok ms, st') =>
      exists h',
        o = Returns tt h' st' /\ updated h h' ls rs ms /\
        same_outside F h h'
  | (Raise e, st') => exists h', o = Throws e h' st' /\ same_outside F h h'
  end.

Definition simulates_node (r : Tree.rule) (F : gset loc) (h : store)
    (st : gmap loc nat) (l : loc) (o : outcome unit) : Prop :=
  match Tree.mark doms ignore r st with
  | (Ok m, st') =>
      exists h',
        o = Returns tt h' st' /\ updated_node h h' l r m /\
        same_outside F h h'
  | (Raise e, st') => exists h', o = Throws e h' st' /\ same_outside F h h'
  end.

End Simulation.

(** ** The conditions of the specification *)

(** A snapshot in which the selector matches an element: directly, or
    through its normal form when the direct query raises. *)
Definition matches_in (d : dom) (selector : jsstring) : bool :=
  match d selector with
  | Some m => nonempty m
  | None =>
      match normalize selector with
      | Ok temp => match d temp with Some m => nonempty m | None => false end
      | Raise _ => false
      end
  end.

(** A snapshot that rejects both the selector and its normal form. *)
Definition fails_open (d : dom) (selector : jsstring) : bool :=
  match d selector with
  | Some _ => false
  | None =>
      match normalize selector with
      | Ok temp => match d temp with Some _ => false | None => true end
      | Raise _ => false
      end
  end.

(** A RegExp of the ignore list whose pattern matches the selector. *)
Definition pattern_matches (ignore : list ignore_entry) (selector : jsstring)
    : Prop :=
  (exists test, In (IgnoreRegExp test) ignore /\ test selector = true) \/
  (exists r exec,
     In (IgnoreRegExpG r exec) ignore /\ exec O selector <> None).

(** The condition of the specification for a selector to survive. *)
Definition spec_survives (doms : list dom) (ignore : list ignore_entry)
    (selector : jsstring) : Prop :=
  is_at_rule selector = true \/
  In (IgnoreString selector) ignore \/
  pattern_matches ignore selector \/
  (exists d, In d doms /\ matches_in d selector = true).

(** An ignore list none of whose RegExps has the flag [g] or [y]. *)
Definition stateless (ignore : list ignore_entry) : bool :=
  forallb (fun e => match e with
                    | IgnoreRegExpG _ _ => false
                    | _ => true
                    end) ignore.

(** Some RegExp without flag of the ignore list tests true. *)
Definition ignore_matches (ignore : list ignore_entry) (selector : jsstring)
    : bool :=
  existsb (fun e => match e with
                    | IgnoreRegExp test => test selector
                    | _ => false
                    end) ignore.

(** Step 3 of the normaliser, in the words of the specification: the
    token up to its first colon outside a quoted text.  [inq] says that
    the scan is inside a quoted text. *)
Fixpoint truncate_at_colon (inq : bool) (token : jsstring) : jsstring :=
  match token with
  | [] => []
  | c :: rest =>
      if inq then c :: truncate_at_colon (negb (c =? quote)) rest
      else if c =? colon then []
      else c :: truncate_at_colon (c =? quote) rest
  end.

(** The shape of a token: its quotes are paired and no white space
    stands outside a quoted text. *)
Fixpoint balanced (inq : bool) (token : jsstring) : bool :=
  match token with
  | [] => negb inq
  | c :: rest =>
      if inq then balanced (negb (c =? quote)) rest
      else if c =? quote then balanced true rest
      else negb (is_space c) && balanced false rest
  end.

(** A [link] element with [rel="stylesheet"]. *)
Definition is_stylesheet_link (e : element) : bool :=
  Js.eqb (tag e) (lit "link") &&
  match attribs e !! lit "rel" with
  | Some v => Js.eqb v (lit "stylesheet")
  | None => false
  end.

(** ** Sample inputs *)

Module Sample.

(** A snapshot given by its answers: it rejects every selector that is
    not listed. *)
Definition table_dom (answers : list (jsstring * list element)) : dom :=
  fun selector =>
    match List.find (fun p => Js.eqb (fst p) selector) answers with
    | Some p => Some (snd p)
    | None => None
    end.

Definition div_foo : element :=
  Element (lit "div") {[ lit "class" := lit "foo" ]}.

(** A page with one element of class [foo]; its engine reads the two
    class selectors only. *)
Definition page : dom :=
  table_dom [(lit ".foo", [div_foo]); (lit ".bar", [])].

(** [.foo, .bar { } @media screen { .foo:hover { } .bar { } }
     @media print { .bar { } } @font-face { }] *)
Definition sheet : store :=
  list_to_map
    [(1, RuleNode [lit ".foo"; lit ".bar"] []);
     (2, MediaNode (lit "screen") [3; 4]);
     (3, RuleNode [lit ".foo:hover"] []);
     (4, RuleNode [lit ".bar"] []);
     (5, MediaNode (lit "print") [6]);
     (6, RuleNode [lit ".bar"] []);
     (7, OtherNode (lit "font-face") [])]%positive.

Definition sheet_rules : list loc := [1; 2; 5; 7]%positive.

Definition before_block : list Tree.rule :=
  [Tree.Rule [lit ".foo"; lit ".bar"] []].

Definition block_rules : list Tree.rule :=
  [Tree.Rule [lit ".foo:hover"] []; Tree.Rule [lit ".bar"] []].

Definition after_block : list Tree.rule :=
  [Tree.Media (lit "print") [Tree.Rule [lit ".bar"] []];
   Tree.Other (lit "font-face") []].

Definition sheet_tree : list Tree.rule :=
  before_block ++ Tree.Media (lit "screen") block_rules :: after_block.

Definition obj (l : loc) : gset loc := {[ l ]}.

Arguments obj l%_positive.

Definition sheet_objects : gset loc :=
  obj 1 ∪ ((obj 2 ∪ (obj 3 ∪ (obj 4 ∪ ∅))) ∪
  ((obj 5 ∪ (obj 6 ∪ ∅)) ∪ (obj 7 ∪ ∅))).

(** The store after the call on [sheet] and [page], and its result. *)
Definition sheet_after : store :=
  list_to_map
    [(1, RuleNode [lit ".foo"] []);
     (2, MediaNode (lit "screen") [3]);
     (3, RuleNode [lit ".foo:hover"] []);
     (4, RuleNode [] []);
     (5, MediaNode (lit "print") []);
     (6, RuleNode [] []);
     (7, OtherNode (lit "font-face") [])]%positive.

Definition sheet_out : list loc := [1; 2; 7]%positive.

(** A rule whose selector has a lone colon between two names. *)
Definition odd_sheet : store :=
  list_to_map [(1, RuleNode [lit "a : hover"] [])]%positive.

(** [<link rel="stylesheet" href=h>], with [media=m] when [m] is
    given. *)
Definition link (m : option jsstring) (h : jsstring) : element :=
  Element (lit "link")
    (let a := <[lit "rel" := lit "stylesheet"]> {[ lit "href" := h ]} in
     match m with
     | Some v => <[lit "media" := v]> a
     | None => a
     end).

Definition links : list element :=
  [link None (lit "a.css"); link (Some (lit "print")) (lit "p.css");
   link (Some (lit "screen")) (lit "s.css")].

(** A directory in which only [main.css] exists. *)
Definition disk : world :=
  World (fun f => Js.eqb f (lit "main.css")) (fun f => lit "/srv/" ++ f).

End Sample.


(** ** phantom_eval *)

(** What [execFile] may hand to its callback as [err]: [null], a
    string, or an [Error] object, which has no method [indexOf]. *)
Inductive jsvalue : Type :=
  | JsNull
  | JsString (s : jsstring)
  | JsError (message : jsstring).

(** The value as a condition: [null] and the empty string are false. *)
Definition truthy (v : jsvalue) : bool :=
  match v with
  | JsNull => false
  | JsString [] => false
  | JsString (_ :: _) => true
  | JsError _ => true
  end.

(** [hay.indexOf(needle)], with [None] for [-1]. *)
Fixpoint index_of (needle hay : jsstring) : option nat :=
  match hay with
  | [] => if starts_with needle [] then Some O else None
  | _ :: hay' =>
      if starts_with needle hay then Some O
      else option_map S (index_of needle hay')
  end.

Definition osx_warning : jsstring :=
  lit "WARNING: Method userSpaceScaleFactor".

Definition performance_note : jsstring :=
  lit "CoreText performance note:".

(** What the callback of [phantom_eval] is called with: [callback(e)]
    or [callback(null, stdout)]. *)
Inductive reply : Type :=
  | Failure (e : jsvalue)
  | Success (stdout : jsstring).

(** [(err || stderr || '').indexOf(marker) === -1] *)
Definition lacks (marker : jsstring) (err : jsvalue) (stderr : jsstring)
    : result bool :=
  match (if truthy err then err else JsString stderr) with
  | JsString text =>
      Ok (match index_of marker text with None => true | Some _ => false end)
  | _ => Raise TypeError
  end.

(** The function that [phantom_eval] gives to [execFile]. *)
Definition phantom_eval_handler (err : jsvalue) (stdout stderr : jsstring)
    : result reply :=
  let! isNot192OSXError := lacks osx_warning err stderr in
  let! isNotPerformanceNote := lacks performance_note err stderr in
  if truthy err && (isNot192OSXError && isNotPerformanceNote)
  then Ok (Failure err)
  else if truthy (JsString stderr)
          && (isNot192OSXError && isNotPerformanceNote)
  then Ok (Failure (JsString stderr))
  else Ok (Success stdout).

(** A text that mentions one of the two notes that [phantom_eval]
    lets pass. *)
Definition mentions_note (text : jsstring) : Prop :=
  exists before after,
    text = before ++ osx_warning ++ after \/
    text = before ++ performance_note ++ after.

(** ** More conditions *)

(** The colons at the head of a token, dropped. *)
Fixpoint drop_colons (token : jsstring) : jsstring :=
  match token with
  | c :: rest => if c =? colon then drop_colons rest else token
  | [] => []
  end.

(** A selector of one token and without comment: no white space, quote
    or slash. *)
Definition one_token (selector : jsstring) : bool :=
  forallb (fun c => negb (is_space c || (c =? quote) || (c =? slash)))
    selector.

(** A selector with nothing for the normalisation to strip: no white
    space, colon, quote or slash. *)
Definition plain (selector : jsstring) : bool :=
  forallb (fun c => negb (is_space c || (c =? colon) || (c =? quote)
                          || (c =? slash))) selector.

(** ** More of extractStylesheets *)

(** The callback of [media.map]:
    ['link[rel="stylesheet"]' + '[media="' + selector + '"]']. *)
Definition media_alternative (m : jsstring) : jsstring :=
  link_stylesheet ++ lit "[media=" ++ [Js.quote] ++ m ++ [Js.quote] ++ lit "]".

(** A media type that is a word: letters, digits, [-] and [_]. *)
Definition media_word (m : jsstring) : bool :=
  forallb Cheerio.is_name_char m.

(** What the engine reads in ['link[rel="stylesheet"]']. *)
Definition link_rel : list Cheerio.simple :=
  [Cheerio.Tag (lit "link"); Cheerio.AttrEq (lit "rel") (lit "stylesheet")].

(** What may follow a compound selector in the selector of
    [extractStylesheets]: nothing, or a comma. *)
Definition ends_compound (rest : jsstring) : Prop :=
  rest = [] \/ exists r, rest = 44%N :: r.

(** What may precede it: nothing, or one space. *)
Definition pad_ok (pad : jsstring) : Prop := pad = [] \/ pad = [Js.space].

(** ** More sample inputs *)

Module More.

(** The tree of [Sample.sheet] after pruning with [Sample.page]. *)
Definition pruned_tree : list Tree.rule :=
  [Tree.Rule [lit ".foo"] [];
   Tree.Media (lit "screen") [Tree.Rule [lit ".foo:hover"] []];
   Tree.Other (lit "font-face") []].

(** A used rule followed by a rule whose selector cannot be
    normalised. *)
Definition half_sheet : store :=
  list_to_map
    [(1, RuleNode [lit ".foo"; lit ".bar"] []);
     (2, RuleNode [lit "a : hover"] [])]%positive.

Definition odd_tree : list Tree.rule := [Tree.Rule [lit "a : hover"] []].

(** A rule that is kept for its ignored selector only. *)
Definition ignored_sheet : store :=
  list_to_map [(1, RuleNode [lit ".bar"; lit ".kept"] [])]%positive.

Definition ignored_tree : list Tree.rule :=
  [Tree.Rule [lit ".bar"; lit ".kept"] []].

(** The [exec] of a RegExp with the flag [g] whose pattern is a plain
    text: the first occurrence of the text from index [i] on. *)
Definition exec_text (text : jsstring) (i : nat) (s : jsstring) : option nat :=
  match index_of text (drop i s) with
  | Some k => Some (i + k + length text)%nat
  | None => None
  end.

(** [/\.a/g], as the RegExp object [9]. *)
Definition dot_a_g : ignore_entry := IgnoreRegExpG 9%positive (exec_text (lit ".a")).

(** [/\.bar/g], as the RegExp object [9]. *)
Definition dot_bar_g : ignore_entry :=
  IgnoreRegExpG 9%positive (exec_text (lit ".bar")).

(** One rule [.bar { }], which no page uses. *)
Definition bar_sheet : store :=
  list_to_map [(1, RuleNode [lit ".bar"] [])]%positive.

Definition bar_tree : list Tree.rule := [Tree.Rule [lit ".bar"] []].

Definition bar_sheet_after : store :=
  list_to_map [(1, RuleNode [] [])]%positive.

End More.

(** * Properties *)

Local Close Scope N_scope.

(** ** The selector filter *)

Lemma rbind_ok {A B} (r : result A) (k : A -> result B) (b : B) :
  rbind r k = Ok b -> exists a, r = Ok a /\ k a = Ok b.
Proof. destruct r as [a|e]; simpl; [eauto | discriminate]. Qed.

Lemma mbind_ok {A B} (m : M A) (k : A -> M B) (st st' : gmap loc nat)
    (b : B) :
  mbind m k st = (Ok b, st') ->
  exists a st1, m st = (Ok a, st1) /\ k a st1 = (Ok b, st').
Proof.
  unfold mbind. destruct (m st) as [[a|e] st1]; [eauto | discriminate].
Qed.

Lemma mret_ok {A} (a b : A) (st st' : gmap loc nat) :
  mret a st = (Ok b, st') -> b = a /\ st' = st.
Proof. unfold mret. intros H. injection H as <- <-. auto. Qed.

(** The steps of [a.filter(f)]. *)
Lemma array_filter_cons {A} (f : A -> M bool) (x : A) (a : list A)
    (st : gmap loc nat) :
  array_filter f (x :: a) st =
  match f x st with
  | (Ok b, st1) =>
      match array_filter f a st1 with
      | (Ok ys, st2) => (Ok (if b then x :: ys else ys), st2)
      | (Raise e, st2) => (Raise e, st2)
      end
  | (Raise e, st1) => (Raise e, st1)
  end.
Proof.
  simpl. unfold mbind, mret. destruct (f x st) as [[b|e] st1]; [|reflexivity].
  destruct (array_filter f a st1) as [[ys|e] st2]; reflexivity.
Qed.

(** A callback that is a function of the element alone. *)
Lemma array_filter_ok {A} (f : A -> M bool) (g : A -> result bool)
    (a : list A) :
  (forall x st, f x st = (g x, st)) ->
  forall st out st', array_filter f a st = (Ok out, st') ->
  st' = st /\
  Forall (fun x => exists b, g x = Ok b) a /\
  forall x, In x out <-> In x a /\ g x = Ok true.
Proof.
  intros Hf. induction a as [|x a IH]; intros st out st' H.
  - apply mret_ok in H as [-> ->].
    split; [reflexivity|]. split; [constructor | simpl; tauto].
  - rewrite array_filter_cons, Hf in H.
    destruct (g x) as [b|e] eqn:Hb; [|discriminate].
    destruct (array_filter f a st) as [[ys|e] st2] eqn:Hys; [|discriminate].
    injection H as <- <-.
    destruct (IH _ _ _ Hys) as (-> & Hall & Hin).
    split; [reflexivity|]. split; [constructor; eauto|].
    intros y. destruct b; simpl; rewrite Hin; split.
    + intros [<-|[? ?]]; auto.
    + intros [[<-|?] ?]; auto.
    + intros [? ?]; auto.
    + intros [[<-|?] ?]; [congruence | auto].
Qed.

Lemma array_filter_fixed {A} (f : A -> M bool) (a : list A)
    (st : gmap loc nat) :
  Forall (fun x => f x st = (Ok true, st)) a ->
  array_filter f a st = (Ok a, st).
Proof.
  induction 1 as [|x a Hx _ IH]; [reflexivity|].
  now rewrite array_filter_cons, Hx, IH.
Qed.

Lemma array_filter_sub {A} (f : A -> M bool) (a : list A) :
  forall st out st', array_filter f a st = (Ok out, st') -> sublist out a.
Proof.
  induction a as [|x a IH]; intros st out st' H.
  - apply mret_ok in H as [-> _]. constructor.
  - rewrite array_filter_cons in H.
    destruct (f x st) as [[b|e] st1]; [|discriminate].
    destruct (array_filter f a st1) as [[ys|e] st2] eqn:Hys; [|discriminate].
    injection H as <- <-. apply IH in Hys.
    destruct b; [now apply sublist_skip | now apply sublist_cons].
Qed.

Lemma ignore_has_In (ignore : list ignore_entry) (selector : jsstring) :
  ignore_has ignore selector = true <-> In (IgnoreString selector) ignore.
Proof.
  unfold ignore_has. rewrite existsb_exists. split.
  - intros ([s|t|r x] & Hin & H); [|discriminate..].
    unfold Js.eqb in H. apply bool_decide_eq_true in H. now subst.
  - intros H. exists (IgnoreString selector). split; [assumption|].
    unfold Js.eqb. now apply bool_decide_eq_true.
Qed.

Lemma ignore_matches_In (ignore : list ignore_entry) (selector : jsstring) :
  ignore_matches ignore selector = true <->
  exists test, In (IgnoreRegExp test) ignore /\ test selector = true.
Proof.
  unfold ignore_matches. rewrite existsb_exists. split.
  - intros ([s|t|r x] & Hin & H); [discriminate | eauto | discriminate].
  - intros (t & Hin & H). exists (IgnoreRegExp t). auto.
Qed.

(** Without a RegExp that has the flag [g] or [y], the loop over the
    ignore list is a function of the selector and writes nothing. *)
Lemma stateless_tests (ignore : list ignore_entry) (selector : jsstring)
    (st : gmap loc nat) :
  stateless ignore = true ->
  ignore_tests ignore selector st = (ignore_matches ignore selector, st).
Proof.
  unfold stateless, ignore_matches.
  induction ignore as [|[s|t|r x] ignore IH]; simpl; intros H;
    [reflexivity|auto| |discriminate].
  destruct (t selector); [reflexivity|auto].
Qed.

Lemma stateless_In (ignore : list ignore_entry) r exec :
  stateless ignore = true -> ~ In (IgnoreRegExpG r exec) ignore.
Proof.
  unfold stateless. rewrite forallb_forall. intros H Hin.
  specialize (H _ Hin). discriminate.
Qed.

Lemma stateless_pattern (ignore : list ignore_entry) (selector : jsstring) :
  stateless ignore = true ->
  (ignore_matches ignore selector = true <-> pattern_matches ignore selector).
Proof.
  intros H. rewrite ignore_matches_In. unfold pattern_matches. split;
    [auto|]. intros [?|(r & x & Hin & _)]; [assumption|].
  now apply stateless_In in Hin.
Qed.

Lemma match_doms_true (doms : list dom) (selector : jsstring) :
  match_doms doms selector = Ok true ->
  exists d, In d doms /\
    (matches_in d selector = true \/ fails_open d selector = true).
Proof.
  induction doms as [|d doms IH]; [discriminate|].
  intros H.
  set (G := exists d0, In d0 (d :: doms) /\
      (matches_in d0 selector = true \/ fails_open d0 selector = true)).
  assert (Hrest : match_doms doms selector = Ok true -> G).
  { intros H'. destruct (IH H') as (d' & ? & ?). exists d'. simpl. auto. }
  assert (Hhere :
    matches_in d selector = true \/ fails_open d selector = true -> G).
  { intros ?. exists d. simpl. auto. }
  clearbody G. clear IH. simpl in H. unfold matches_in, fails_open in Hhere.
  destruct (d selector) as [m|].
  - destruct (nonempty m); auto.
  - destruct (normalize selector) as [temp|e]; simpl in H; [|discriminate].
    destruct (d temp) as [m|]; [|auto].
    destruct (nonempty m); auto.
Qed.

Lemma match_doms_hit (doms : list dom) (selector : jsstring) (d : dom)
    (b : bool) :
  In d doms ->
  matches_in d selector = true \/ fails_open d selector = true ->
  match_doms doms selector = Ok b -> b = true.
Proof.
  induction doms as [|d0 doms IH]; simpl; [tauto|].
  intros [->|Hin] Hd H.
  - unfold matches_in, fails_open in Hd.
    destruct (d selector) as [m|].
    + destruct (nonempty m); [congruence|].
      destruct Hd; discriminate.
    + destruct (normalize selector) as [temp|e]; simpl in H; [|discriminate].
      destruct (d temp) as [m|]; [|congruence].
      destruct (nonempty m); [congruence|]. destruct Hd; discriminate.
  - destruct (d0 selector) as [m|].
    + destruct (nonempty m); [congruence | auto].
    + destruct (normalize selector) as [temp|e]; simpl in H; [|discriminate].
      destruct (d0 temp) as [m|]; [|congruence].
      destruct (nonempty m); [congruence | auto].
Qed.

(** What the callback returns, by the outcome of the loop over the
    ignore list in the state at hand. *)
Lemma keep_selector_cases (doms : list dom) (ignore : list ignore_entry)
    (selector : jsstring) (st st' : gmap loc nat) (b : bool) :
  keep_selector doms ignore selector st = (Ok b, st') ->
  (b = true <->
   is_at_rule selector = true \/
   In (IgnoreString selector) ignore \/
   fst (ignore_tests ignore selector st) = true \/
   exists d, In d doms /\
     (matches_in d selector = true \/ fails_open d selector = true)).
Proof.
  unfold keep_selector. intros H.
  destruct (is_at_rule selector) eqn:Hat.
  { injection H as <- _. tauto. }
  destruct (ignore_has ignore selector) eqn:Hs.
  { injection H as <- _. apply ignore_has_In in Hs. tauto. }
  destruct (ignore_tests ignore selector st) as [hit st1] eqn:Ht.
  destruct hit.
  { injection H as <- _. simpl. tauto. }
  injection H as H _. simpl. split.
  - intros ->. destruct (match_doms_true _ _ H) as (d & Hin & Hd). eauto 6.
  - intros [?|[Hi|[?|(d & Hin & Hd)]]].
    + discriminate.
    + apply ignore_has_In in Hi. congruence.
    + discriminate.
    + eapply match_doms_hit; eauto.
Qed.

(** Without a RegExp that has the flag [g] or [y], the callback is a
    function of the selector and writes nothing. *)
Lemma keep_selector_stateless (doms : list dom) (ignore : list ignore_entry)
    (selector : jsstring) (st : gmap loc nat) :
  stateless ignore = true ->
  keep_selector doms ignore selector st =
  (fst (keep_selector doms ignore selector ∅), st).
Proof.
  intros H. unfold keep_selector.
  destruct (is_at_rule selector); [reflexivity|].
  destruct (ignore_has ignore selector); [reflexivity|].
  rewrite !(stateless_tests _ _ _ H).
  destruct (ignore_matches ignore selector); reflexivity.
Qed.

Lemma keep_selector_spec (doms : list dom) (ignore : list ignore_entry)
    (selector : jsstring) (st st' : gmap loc nat) (b : bool) :
  stateless ignore = true ->
  keep_selector doms ignore selector st = (Ok b, st') ->
  (b = true <->
   spec_survives doms ignore selector \/
   exists d, In d doms /\ fails_open d selector = true).
Proof.
  intros Hs H. rewrite (keep_selector_cases _ _ _ _ _ _ H).
  rewrite (stateless_tests _ _ _ Hs). simpl.
  rewrite (stateless_pattern _ _ Hs). unfold spec_survives.
  split.
  - intros [?|[?|[?|(d & Hin & [?|?])]]]; eauto 8.
  - intros [[?|[?|[?|(d & Hin & ?)]]]|(d & Hin & ?)]; eauto 8.
Qed.

(** Filtering again what the filter returned, without a RegExp that
    has the flag [g] or [y]. *)
Lemma filterUnusedSelectors_fixed (doms : list dom)
    (ignore : list ignore_entry) (s s' : list jsstring)
    (st st' : gmap loc nat) :
  stateless ignore = true ->
  filterUnusedSelectors doms s ignore st = (Ok s', st') ->
  st' = st /\
  forall st0, filterUnusedSelectors doms s' ignore st0 = (Ok s', st0).
Proof.
  intros Hs H. unfold filterUnusedSelectors in *.
  destruct (array_filter_ok _ _ s
              (fun x st => keep_selector_stateless doms ignore x st Hs)
              _ _ _ H) as (-> & _ & Hin).
  split; [reflexivity|]. intros st0.
  apply array_filter_fixed, List.Forall_forall. intros x Hx.
  rewrite (keep_selector_stateless _ _ _ _ Hs). f_equal.
  now apply Hin in Hx.
Qed.

(** ** The pruner on trees *)

Section TreeFacts.
Variable doms : list dom.
Variable ignore : list ignore_entry.

Lemma rule_ind' (P : Tree.rule -> Prop) :
  (forall s d, P (Tree.Rule s d)) ->
  (forall c rs, Forall P rs -> P (Tree.Media c rs)) ->
  (forall t b, P (Tree.Other t b)) ->
  forall r, P r.
Proof.
  intros HR HM HO. fix IH 1. intros [s d|c rs|t b]; [apply HR| |apply HO].
  apply HM. induction rs as [|r rs IHrs]; constructor; [apply IH|exact IHrs].
Qed.

Lemma update_media c rs st :
  Tree.update doms ignore (Tree.Media c rs) st =
  (do! rs' := Tree.prune doms ignore rs in mret (Tree.Media c rs')) st.
Proof.
  unfold Tree.prune, Tree.update_all. simpl.
  match goal with |- mbind ?a _ _ = _ =>
    assert (E : forall st, a st = array_map_m (Tree.update doms ignore) rs st)
  end.
  { induction rs as [|r rs IH]; intros st0; simpl; [reflexivity|].
    unfold mbind. destruct (Tree.update doms ignore r st0) as [[u|e] st1];
      [|reflexivity].
    now rewrite IH. }
  unfold mbind. rewrite E.
  now destruct (array_map_m (Tree.update doms ignore) rs st) as [[us|e] st1].
Qed.

Lemma mark_media c rs st :
  Tree.mark doms ignore (Tree.Media c rs) st =
  (do! ms := Tree.mark_all doms ignore rs in mret (Tree.Media c ms)) st.
Proof.
  unfold Tree.mark_all. simpl.
  match goal with |- mbind ?a _ _ = _ =>
    assert (E : forall st, a st = array_map_m (Tree.mark doms ignore) rs st)
  end.
  { induction rs as [|r rs IH]; intros st0; simpl; [reflexivity|].
    unfold mbind. destruct (Tree.mark doms ignore r st0) as [[u|e] st1];
      [|reflexivity].
    now rewrite IH. }
  unfold mbind. now rewrite E.
Qed.

Lemma mark_all_cons r rs st :
  Tree.mark_all doms ignore (r :: rs) st =
  match Tree.mark doms ignore r st with
  | (Ok m, st1) =>
      match Tree.mark_all doms ignore rs st1 with
      | (Ok ms, st2) => (Ok (m :: ms), st2)
      | (Raise e, st2) => (Raise e, st2)
      end
  | (Raise e, st1) => (Raise e, st1)
  end.
Proof.
  unfold Tree.mark_all. simpl. unfold mbind, mret.
  destruct (Tree.mark doms ignore r st) as [[m|e] st1]; [|reflexivity].
  now destruct (array_map_m (Tree.mark doms ignore) rs st1) as [[ms|e] st2].
Qed.

Lemma update_all_cons r rs st :
  Tree.update_all doms ignore (r :: rs) st =
  match Tree.update doms ignore r st with
  | (Ok u, st1) =>
      match Tree.update_all doms ignore rs st1 with
      | (Ok us, st2) => (Ok (u :: us), st2)
      | (Raise e, st2) => (Raise e, st2)
      end
  | (Raise e, st1) => (Raise e, st1)
  end.
Proof.
  unfold Tree.update_all. simpl. unfold mbind, mret.
  destruct (Tree.update doms ignore r st) as [[m|e] st1]; [|reflexivity].
  now destruct (array_map_m (Tree.update doms ignore) rs st1) as [[ms|e] st2].
Qed.

Lemma prune_cons r rs st :
  Tree.prune doms ignore (r :: rs) st =
  (do! u := Tree.update doms ignore r in
   do! out := Tree.prune doms ignore rs in
   mret (if Tree.kept u then u :: out else out)) st.
Proof.
  unfold Tree.prune. unfold mbind at 1. rewrite update_all_cons.
  unfold mbind, mret.
  destruct (Tree.update doms ignore r st) as [[u|e] st1]; [|reflexivity].
  destruct (Tree.update_all doms ignore rs st1) as [[us|e] st2];
    reflexivity.
Qed.

Lemma prune_app rs1 rs2 st :
  Tree.prune doms ignore (rs1 ++ rs2) st =
  (do! out1 := Tree.prune doms ignore rs1 in
   do! out2 := Tree.prune doms ignore rs2 in
   mret (out1 ++ out2)) st.
Proof.
  revert st. induction rs1 as [|r rs1 IH]; intros st; simpl.
  - unfold mbind, mret. simpl.
    now destruct (Tree.prune doms ignore rs2 st) as [[o|e] st1].
  - unfold mbind at 1. rewrite !prune_cons. unfold mbind, mret in *.
    destruct (Tree.update doms ignore r st) as [[u|e] st1]; [|reflexivity].
    rewrite IH.
    destruct (Tree.prune doms ignore rs1 st1) as [[o1|e] st2]; [|reflexivity].
    destruct (Tree.prune doms ignore rs2 st2) as [[o2|e] st3]; [|reflexivity].
    now destruct (Tree.kept u).
Qed.

(** The update of a tree is its marking with the empty nodes taken
    out of the nested sequences. *)
Lemma update_mark r :
  forall st,
  Tree.update doms ignore r st =
  match Tree.mark doms ignore r st with
  | (Ok m, st') => (Ok (Tree.strip m), st')
  | (Raise e, st') => (Raise e, st')
  end.
Proof.
  induction r as [s d|c rs IH|t b] using rule_ind'; intros st.
  - simpl. unfold mbind, mret.
    now destruct (filterUnusedSelectors doms s ignore st) as [[v|e] st1].
  - rewrite update_media, mark_media. unfold Tree.prune, mbind, mret.
    enough (E : forall st, Tree.update_all doms ignore rs st =
              match Tree.mark_all doms ignore rs st with
              | (Ok ms, st') => (Ok (List.map Tree.strip ms), st')
              | (Raise e, st') => (Raise e, st')
              end).
    { rewrite E.
      now destruct (Tree.mark_all doms ignore rs st) as [[ms|e] st1]. }
    clear st. induction IH as [|r rs Hr _ IHrs]; intros st; [reflexivity|].
    rewrite update_all_cons, mark_all_cons, Hr.
    destruct (Tree.mark doms ignore r st) as [[m|e] st1]; [|reflexivity].
    rewrite IHrs.
    now destruct (Tree.mark_all doms ignore rs st1) as [[ms|e] st2].
  - reflexivity.
Qed.

Lemma update_all_mark rs :
  forall st,
  Tree.update_all doms ignore rs st =
  match Tree.mark_all doms ignore rs st with
  | (Ok ms, st') => (Ok (List.map Tree.strip ms), st')
  | (Raise e, st') => (Raise e, st')
  end.
Proof.
  induction rs as [|r rs IH]; intros st; [reflexivity|].
  rewrite update_all_cons, mark_all_cons, update_mark.
  destruct (Tree.mark doms ignore r st) as [[m|e] st1]; [|reflexivity].
  rewrite IH.
  now destruct (Tree.mark_all doms ignore rs st1) as [[ms|e] st2].
Qed.

Lemma prune_mark rs st :
  Tree.prune doms ignore rs st =
  match Tree.mark_all doms ignore rs st with
  | (Ok ms, st') =>
      (Ok (List.filter Tree.kept (List.map Tree.strip ms)), st')
  | (Raise e, st') => (Raise e, st')
  end.
Proof.
  unfold Tree.prune, mbind, mret. rewrite update_all_mark.
  now destruct (Tree.mark_all doms ignore rs st) as [[ms|e] st1].
Qed.

Lemma settled_kept r : Tree.settled doms ignore r -> Tree.kept r = true.
Proof.
  destruct 1 as [s d _ Hs|c rs _ Hrs|t b]; simpl; [| |reflexivity].
  - now destruct s.
  - now destruct rs.
Qed.

Lemma settled_update r :
  Tree.settled doms ignore r ->
  forall st, Tree.update doms ignore r st = (Ok r, st).
Proof.
  induction r as [s d|c rs IH|t b] using rule_ind'; intros H st.
  - inversion H as [s' d' Hs _| |]; subst. simpl. unfold mbind.
    now rewrite Hs.
  - inversion H as [|c' rs' Hall _|]; subst. rewrite update_media.
    enough (E : forall st, Tree.prune doms ignore rs st = (Ok rs, st))
      by (unfold mbind; now rewrite E).
    clear H st. induction IH as [|r rs Hr _ IHrs]; intros st; [reflexivity|].
    inversion Hall as [|? ? Hsr Hsrs]; subst.
    rewrite prune_cons. unfold mbind, mret.
    rewrite (Hr Hsr), (IHrs Hsrs).
    now rewrite (settled_kept _ Hsr).
  - reflexivity.
Qed.

Lemma settled_prune rs :
  Forall (Tree.settled doms ignore) rs ->
  forall st, Tree.prune doms ignore rs st = (Ok rs, st).
Proof.
  induction 1 as [|r rs Hr _ IH]; intros st; [reflexivity|].
  rewrite prune_cons. unfold mbind, mret.
  rewrite (settled_update _ Hr), IH.
  now rewrite (settled_kept _ Hr).
Qed.

Section Stateless.
Hypothesis no_flag : stateless ignore = true.

Lemma update_settled r :
  forall st u st', Tree.update doms ignore r st = (Ok u, st') ->
  st' = st /\ (Tree.kept u = true -> Tree.settled doms ignore u).
Proof.
  induction r as [s d|c rs IH|t b] using rule_ind'; intros st u st' Hu.
  - simpl in Hu. apply mbind_ok in Hu as (s' & st1 & E & Hu).
    apply mret_ok in Hu as [-> ->].
    destruct (filterUnusedSelectors_fixed _ _ _ _ _ _ no_flag E) as [-> Hs].
    split; [reflexivity|]. intros Hk. constructor; [exact Hs|].
    intros ->. discriminate.
  - rewrite update_media in Hu. apply mbind_ok in Hu as (v & st1 & E & Hu).
    apply mret_ok in Hu as [-> ->].
    enough (G : st1 = st /\ Forall (Tree.settled doms ignore) v).
    { destruct G as [-> G]. split; [reflexivity|]. intros Hk.
      constructor; [exact G|]. intros ->. discriminate. }
    revert st v st1 E.
    induction IH as [|r rs Hr _ IHrs]; intros st v st1 E.
    + apply mret_ok in E as [-> ->]. split; [reflexivity|constructor].
    + rewrite prune_cons in E. apply mbind_ok in E as (u & st2 & Eu & E).
      apply mbind_ok in E as (out & st3 & Eo & E).
      apply mret_ok in E as [-> ->].
      destruct (Hr _ _ _ Eu) as [-> Hu].
      destruct (IHrs _ _ _ Eo) as [-> Ho]. split; [reflexivity|].
      destruct (Tree.kept u) eqn:Hk; auto.
  - apply mret_ok in Hu as [-> ->]. split; [reflexivity|]. constructor.
Qed.

Lemma prune_settled rs :
  forall st out st', Tree.prune doms ignore rs st = (Ok out, st') ->
  st' = st /\ Forall (Tree.settled doms ignore) out.
Proof.
  induction rs as [|r rs IH]; intros st out st' H.
  - apply mret_ok in H as [-> ->]. split; [reflexivity|constructor].
  - rewrite prune_cons in H. apply mbind_ok in H as (u & st2 & Eu & H).
    apply mbind_ok in H as (o & st3 & Eo & H).
    apply mret_ok in H as [-> ->].
    destruct (update_settled _ _ _ _ Eu) as [-> Hu].
    destruct (IH _ _ _ Eo) as [-> Ho]. split; [reflexivity|].
    destruct (Tree.kept u) eqn:Hk; auto.
Qed.

(** Pruning a pruned tree changes nothing. *)
Lemma prune_idempotent rs st out st' :
  Tree.prune doms ignore rs st = (Ok out, st') ->
  Tree.prune doms ignore out st' = (Ok out, st').
Proof. intros H. now apply settled_prune, prune_settled with rs st st'. Qed.

End Stateless.

End TreeFacts.

(** ** The pruner on the store *)

Lemma repr_frame_both (h h' : store) :
  (forall ls rs F, repr h ls rs F ->
     (forall l, l ∈ F -> h' !! l = h !! l) -> repr h' ls rs F) /\
  (forall l r F, repr_node h l r F ->
     (forall l', l' ∈ F -> h' !! l' = h !! l') -> repr_node h' l r F).
Proof.
  apply repr_both.
  - intros _. constructor.
  - intros l ls r rs F G _ IHn _ IHl Hdisj Hsame.
    constructor; [apply IHn|apply IHl|assumption];
      intros l' Hl'; apply Hsame; set_solver.
  - intros l s d Hl Hsame. constructor. rewrite Hsame; [assumption|set_solver].
  - intros l c ls rs F Hl _ IH Hnotin Hsame.
    apply repr_media with ls; [|apply IH|assumption].
    + rewrite Hsame; [assumption|set_solver].
    + intros l' Hl'. apply Hsame. set_solver.
  - intros l t b Hl Hsame. constructor. rewrite Hsame; [assumption|set_solver].
Qed.

Lemma repr_frame (h h' : store) ls rs F :
  repr h ls rs F -> (forall l, l ∈ F -> h' !! l = h !! l) -> repr h' ls rs F.
Proof. apply repr_frame_both. Qed.

Lemma repr_node_frame (h h' : store) l r F :
  repr_node h l r F -> (forall l', l' ∈ F -> h' !! l' = h !! l') ->
  repr_node h' l r F.
Proof. apply repr_frame_both. Qed.

Lemma survives_kept (h : store) l r F :
  repr_node h l r F -> survives h l = Tree.kept r.
Proof.
  unfold survives. destruct 1 as [l s d Hl|l c ls rs F Hl Hrs _|l t b Hl];
    rewrite Hl; simpl; [reflexivity| |reflexivity].
  destruct Hrs; reflexivity.
Qed.

Lemma survives_same (h h' : store) l :
  h' !! l = h !! l -> survives h' l = survives h l.
Proof. unfold survives. now intros ->. Qed.

Lemma repr_filter (h : store) ls rs F :
  repr h ls rs F ->
  exists F', repr h (List.filter (survives h) ls) (List.filter Tree.kept rs) F'
             /\ F' ⊆ F.
Proof.
  revert ls F. induction rs as [|r rs IH]; intros ls F H;
    inversion H as [|l ls' r' rs' F1 F2 Hn Hl Hdisj]; subst; simpl.
  - exists ∅. split; [constructor|set_solver].
  - destruct (IH _ _ Hl) as (F' & Hrepr & Hsub).
    rewrite (survives_kept _ _ _ _ Hn). destruct (Tree.kept r).
    + exists (F1 ∪ F'). split; [constructor; [assumption..|]|]; set_solver.
    + exists F'. split; [assumption|set_solver].
Qed.

Lemma repr_node_head (h : store) l r F : repr_node h l r F -> l ∈ F.
Proof. destruct 1; set_solver. Qed.

Lemma repr_heads (h : store) ls rs F :
  repr h ls rs F -> forall l, In l ls -> l ∈ F.
Proof.
  induction 1 as [|l ls r rs F G Hn Hl IH Hd]; intros l' Hin;
    [destruct Hin|].
  destruct Hin as [<-|Hin];
    [apply repr_node_head in Hn|apply IH in Hin]; set_solver.
Qed.

(** The nodes of a tree stay updated when the stores change outside
    the tree. *)
Lemma updated_frame_both (h0 h h' h'' : store) :
  (forall ls rs F, repr h0 ls rs F ->
     forall ms, updated h h' ls rs ms ->
     (forall l, l ∈ F -> h !! l = h0 !! l) ->
     (forall l, l ∈ F -> h'' !! l = h' !! l) ->
     updated h0 h'' ls rs ms) /\
  (forall l r F, repr_node h0 l r F ->
     forall m, updated_node h h' l r m ->
     (forall l', l' ∈ F -> h !! l' = h0 !! l') ->
     (forall l', l' ∈ F -> h'' !! l' = h' !! l') ->
     updated_node h0 h'' l r m).
Proof.
  apply repr_both.
  - intros ms H _ _. inversion H; subst. constructor.
  - intros l ls r rs F G _ IHn _ IHl Hdisj ms H Hin Hout.
    inversion H as [|? ? ? ? m ms' Hm Hms]; subst.
    constructor; [apply IHn|apply IHl]; try assumption;
      intros l' Hl'; first [apply Hin|apply Hout]; set_solver.
  - intros l s d Hl m H Hin Hout.
    inversion H as [? ? s' ? _ Hl'| |]; subst.
    constructor; [assumption|]. rewrite Hout; [assumption|set_solver].
  - intros l c ls rs F Hl Hrs IH Hnotin m H Hin Hout.
    inversion H as [|? ? ls0 ? ms Hl0 Hl' Hms|]; subst.
    rewrite Hin, Hl in Hl0 by set_solver. injection Hl0 as <-.
    apply updated_media with ls; [assumption| |].
    + rewrite Hout, Hl' by set_solver. do 2 f_equal.
      apply List.filter_ext_in. intros l' Hl1. symmetry.
      apply survives_same, Hout.
      pose proof (repr_heads _ _ _ _ Hrs _ Hl1). set_solver.
    + apply IH; [assumption| |]; intros l' Hl1;
        first [apply Hin|apply Hout]; set_solver.
  - intros l t b Hl m H Hin Hout.
    inversion H as [| |? ? ? _ Hl']; subst.
    constructor; [assumption|]. rewrite Hout; [assumption|set_solver].
Qed.

Lemma updated_frame (h0 h h' h'' : store) ls rs ms F :
  repr h0 ls rs F -> updated h h' ls rs ms ->
  (forall l, l ∈ F -> h !! l = h0 !! l) ->
  (forall l, l ∈ F -> h'' !! l = h' !! l) ->
  updated h0 h'' ls rs ms.
Proof.
  intros H Hu Hin Hout.
  exact (proj1 (updated_frame_both h0 h h' h'') ls rs F H ms Hu Hin Hout).
Qed.

Lemma updated_node_frame (h0 h h' h'' : store) l r m F :
  repr_node h0 l r F -> updated_node h h' l r m ->
  (forall l', l' ∈ F -> h !! l' = h0 !! l') ->
  (forall l', l' ∈ F -> h'' !! l' = h' !! l') ->
  updated_node h0 h'' l r m.
Proof.
  intros H Hu Hin Hout.
  exact (proj2 (updated_frame_both h0 h h' h'') l r F H m Hu Hin Hout).
Qed.

(** The references of a tree lead, after its update, to its nodes
    with the empty ones taken out of the nested sequences. *)
Lemma updated_repr_both (h h' : store) :
  (forall ls rs F, repr h ls rs F ->
     forall ms, updated h h' ls rs ms ->
     exists F', repr h' ls (List.map Tree.strip ms) F' /\ F' ⊆ F) /\
  (forall l r F, repr_node h l r F ->
     forall m, updated_node h h' l r m ->
     exists F', repr_node h' l (Tree.strip m) F' /\ F' ⊆ F).
Proof.
  apply repr_both.
  - intros ms H. inversion H; subst. exists ∅. split; [constructor|set_solver].
  - intros l ls r rs F G _ IHn _ IHl Hdisj ms H.
    inversion H as [|? ? ? ? m ms' Hm Hms]; subst.
    destruct (IHn _ Hm) as (F1 & H1 & Hs1).
    destruct (IHl _ Hms) as (F2 & H2 & Hs2).
    exists (F1 ∪ F2). simpl. split; [constructor|]; [assumption..| |];
      set_solver.
  - intros l s d Hl m H. inversion H as [? ? s' ? _ Hl'| |]; subst.
    exists {[l]}. split; [now constructor|set_solver].
  - intros l c ls rs F Hl Hrs IH Hnotin m H.
    inversion H as [|? ? ls0 ? ms Hl0 Hl' Hms|]; subst.
    rewrite Hl in Hl0. injection Hl0 as <-.
    destruct (IH _ Hms) as (F1 & H1 & Hs1).
    destruct (repr_filter _ _ _ _ H1) as (F2 & H2 & Hs2).
    exists ({[l]} ∪ F2). simpl. split; [|set_solver].
    apply repr_media with (List.filter (survives h') ls);
      [assumption..|set_solver].
  - intros l t b Hl m H. inversion H as [| |? ? ? _ Hl']; subst.
    exists {[l]}. split; [now constructor|set_solver].
Qed.

Lemma updated_repr (h h' : store) ls rs ms F :
  repr h ls rs F -> updated h h' ls rs ms ->
  exists F', repr h' ls (List.map Tree.strip ms) F' /\ F' ⊆ F.
Proof.
  intros H Hu. exact (proj1 (updated_repr_both h h') ls rs F H ms Hu).
Qed.

Section Refinement.
Variable doms : list dom.
Variable ignore : list ignore_entry.

Section Step.
Variable recur : list loc -> store -> gmap loc nat -> outcome (list loc).
Variable fuel : nat.
Hypothesis recur_ok : forall ls rs F h st,
  repr h ls rs F -> Tree.heights rs < fuel ->
  simulates doms ignore rs F h st ls (recur ls h st).

Lemma visit_simulates (h : store) (st : gmap loc nat) l r F :
  repr_node h l r F -> Tree.height r <= fuel ->
  simulates_node doms ignore r F h st l (visit doms ignore recur l h st).
Proof.
  unfold simulates_node, visit.
  destruct 1 as [l s d Hl|l c ls rs F Hl Hrs Hnotin|l t b Hl];
    intros Hfuel; rewrite Hl.
  - simpl. unfold mbind, mret.
    destruct (filterUnusedSelectors doms s ignore st) as [[v|e] st1].
    + unfold set_selectors. rewrite Hl.
      exists (<[l := RuleNode v d]> h). split; [reflexivity|]. split.
      * constructor; [assumption|apply lookup_insert_eq].
      * intros l' Hl'. apply lookup_insert_ne. set_solver.
    + exists h. split; [reflexivity|]. intros l' _. reflexivity.
  - rewrite mark_media. unfold mbind, mret. simpl in Hfuel.
    specialize (recur_ok ls rs F h st Hrs ltac:(unfold Tree.heights; lia)).
    unfold simulates in recur_ok.
    destruct (Tree.mark_all doms ignore rs st) as [[ms|e] st1].
    + destruct recur_ok as (h1 & -> & Hupd & Hsame).
      unfold set_rules. rewrite (Hsame l Hnotin), Hl.
      set (v := List.filter (survives h1) ls).
      assert (Hin : forall l', l' ∈ F ->
                (<[l := MediaNode c v]> h1) !! l' = h1 !! l').
      { intros l' Hl'. apply lookup_insert_ne. set_solver. }
      exists (<[l := MediaNode c v]> h1). split; [reflexivity|]. split.
      * apply updated_media with ls; [assumption| |].
        -- rewrite lookup_insert_eq. do 2 f_equal. unfold v.
           apply List.filter_ext_in. intros l' Hl'. symmetry.
           apply survives_same, Hin. eapply repr_heads; eauto.
        -- now apply (updated_frame h h h1 _ ls rs ms F).
      * intros l' Hl'. rewrite lookup_insert_ne by set_solver.
        apply Hsame. set_solver.
    + destruct recur_ok as (h1 & -> & Hsame). exists h1.
      split; [reflexivity|]. intros l' Hl'. apply Hsame. set_solver.
  - simpl. exists h. split; [reflexivity|].
    split; [now constructor|]. intros l' _. reflexivity.
Qed.

Lemma forEach_simulates rs :
  forall ls F h st, repr h ls rs F -> Tree.heights rs <= fuel ->
  simulates_each doms ignore rs F h st ls
    (forEach (visit doms ignore recur) ls h st).
Proof.
  unfold simulates_each.
  induction rs as [|r rs IH]; intros ls F h st H Hfuel;
    inversion H as [|l ls' r' rs' F1 F2 Hn Hl Hdisj]; subst.
  - exists h. split; [reflexivity|]. split; [constructor|].
    intros l _. reflexivity.
  - unfold Tree.heights in Hfuel. simpl in Hfuel.
    pose proof (visit_simulates h st l r F1 Hn ltac:(lia)) as Hv.
    unfold simulates_node in Hv. rewrite mark_all_cons. simpl.
    destruct (Tree.mark doms ignore r st) as [[m|e] st1].
    + destruct Hv as (h1 & -> & Hm & Hsame1).
      assert (Hl1 : repr h1 ls' rs F2).
      { apply (repr_frame h); [assumption|].
        intros l' Hl'. apply Hsame1. set_solver. }
      specialize (IH ls' F2 h1 st1 Hl1 ltac:(unfold Tree.heights; lia)).
      destruct (Tree.mark_all doms ignore rs st1) as [[ms|e] st2].
      * destruct IH as (h2 & -> & Hms & Hsame2).
        exists h2. split; [reflexivity|]. split.
        -- constructor.
           ++ apply (updated_node_frame h h h1 h2 l r m F1);
                [assumption..|reflexivity|].
              intros l' Hl'. apply Hsame2. set_solver.
           ++ apply (updated_frame h h1 h2 h2 ls' rs ms F2);
                [assumption..| |reflexivity].
              intros l' Hl'. apply Hsame1. set_solver.
        -- intros l' Hl'. rewrite Hsame2 by set_solver.
           apply Hsame1. set_solver.
      * destruct IH as (h2 & -> & Hsame2). exists h2.
        split; [reflexivity|]. intros l' Hl'.
        rewrite Hsame2 by set_solver. apply Hsame1. set_solver.
    + destruct Hv as (h1 & -> & Hsame1). exists h1.
      split; [reflexivity|]. intros l' Hl'. apply Hsame1. set_solver.
Qed.

End Step.

(** With fuel above the nesting depth, [filterUnusedRules] on the
    layout of a tree does what the update of the tree says. *)
Lemma filterUnusedRules_simulates fuel :
  forall ls rs F h st, repr h ls rs F -> Tree.heights rs < fuel ->
  simulates doms ignore rs F h st ls
    (filterUnusedRules fuel doms ls ignore h st).
Proof.
  induction fuel as [|fuel IH]; intros ls rs F h st H Hfuel; [lia|].
  pose proof (forEach_simulates _ fuel IH rs ls F h st H ltac:(lia)) as Hall.
  unfold simulates, simulates_each in *. simpl.
  destruct (Tree.mark_all doms ignore rs st) as [[ms|e] st1].
  - destruct Hall as (h' & -> & Hrest). exists h'. auto.
  - destruct Hall as (h' & -> & Hrest). exists h'. auto.
Qed.

End Refinement.

Section Settled.
Variable doms : list dom.
Variable ignore : list ignore_entry.

Lemma heights_filter (p : Tree.rule -> bool) rs :
  Tree.heights (List.filter p rs) <= Tree.heights rs.
Proof.
  unfold Tree.heights. induction rs as [|r rs IH]; simpl; [lia|].
  destruct (p r); simpl; lia.
Qed.

Lemma update_height r :
  forall st u st', Tree.update doms ignore r st = (Ok u, st') ->
  Tree.height u <= Tree.height r.
Proof.
  induction r as [s d|c rs IH|t b] using rule_ind'; intros st u st' Hu.
  - simpl in Hu. apply mbind_ok in Hu as (s' & st1 & _ & Hu).
    apply mret_ok in Hu as [-> _]. simpl. lia.
  - rewrite update_media in Hu. apply mbind_ok in Hu as (rs' & st1 & Hrs & Hu).
    apply mret_ok in Hu as [-> _]. simpl. apply le_n_S.
    change (Tree.heights rs' <= Tree.heights rs).
    clear c st'. revert st rs' st1 Hrs.
    induction IH as [|r rs Hr _ IHrs]; intros st rs' st1 Hrs.
    + apply mret_ok in Hrs as [-> _]. simpl. lia.
    + rewrite prune_cons in Hrs. apply mbind_ok in Hrs as (u & st2 & Hu & Hrs).
      apply mbind_ok in Hrs as (out & st3 & Hout & Hrs).
      apply mret_ok in Hrs as [-> _].
      specialize (Hr _ _ _ Hu). specialize (IHrs _ _ _ Hout).
      unfold Tree.heights in *. destruct (Tree.kept u); simpl; lia.
  - apply mret_ok in Hu as [-> _]. simpl. lia.
Qed.

Lemma prune_heights rs :
  forall st out st', Tree.prune doms ignore rs st = (Ok out, st') ->
  Tree.heights out <= Tree.heights rs.
Proof.
  induction rs as [|r rs IH]; intros st out st' H.
  - apply mret_ok in H as [-> _]. simpl. lia.
  - rewrite prune_cons in H. apply mbind_ok in H as (u & st2 & Hu & H).
    apply mbind_ok in H as (o & st3 & Ho & H).
    apply mret_ok in H as [-> _].
    apply update_height in Hu. specialize (IH _ _ _ Ho).
    unfold Tree.heights in *. destruct (Tree.kept u); simpl; lia.
Qed.

Lemma filter_survives_settled (h : store) ls rs F :
  repr h ls rs F -> Forall (Tree.settled doms ignore) rs ->
  List.filter (survives h) ls = ls.
Proof.
  revert ls F. induction rs as [|r rs IH]; intros ls F H Hall;
    inversion H as [|l ls' r' rs' F1 F2 Hn Hl Hdisj]; subst; simpl;
    [reflexivity|].
  inversion Hall as [|? ? Hr Hrs]; subst.
  rewrite (survives_kept _ _ _ _ Hn), (settled_kept _ _ _ Hr).
  f_equal. eauto.
Qed.

(** On the layout of a settled tree a call writes what is there
    already and returns the array it was given. *)
Lemma filterUnusedRules_settled fuel :
  forall ls rs F h st, repr h ls rs F ->
  Forall (Tree.settled doms ignore) rs -> Tree.heights rs < fuel ->
  filterUnusedRules fuel doms ls ignore h st = Returns ls h st.
Proof.
  induction fuel as [|fuel IH]; intros ls rs F h st H Hall Hfuel; [lia|].
  simpl.
  enough (E : forEach (visit doms ignore
              (fun nested h st =>
                 filterUnusedRules fuel doms nested ignore h st))
              ls h st = Returns tt h st).
  { rewrite E. now rewrite (filter_survives_settled _ _ _ _ H Hall). }
  assert (Hle : Tree.heights rs <= fuel) by lia. clear Hfuel.
  revert ls F H Hall Hle. induction rs as [|r rs IHrs]; intros ls F H Hall Hle;
    inversion H as [|l ls' r' rs' F1 F2 Hn Hl Hdisj]; subst; simpl;
    [reflexivity|].
  inversion Hall as [|? ? Hr Hrs]; subst.
  unfold Tree.heights in Hle. simpl in Hle.
  assert (Ev : visit doms ignore
            (fun nested h st =>
               filterUnusedRules fuel doms nested ignore h st)
            l h st = Returns tt h st).
  { unfold visit.
    inversion Hn as [? s d Hlk|? c ns nrs G Hlk Hnested Hnotin|? t b Hlk];
      subst; rewrite Hlk.
    - inversion Hr as [? ? Hs _| |]; subst. rewrite Hs.
      unfold set_selectors. rewrite Hlk. now rewrite insert_id.
    - inversion Hr as [|? ? Hnall _|]; subst.
      rewrite (IH ns nrs G h st Hnested Hnall)
        by (unfold Tree.heights; simpl in Hle; lia).
      unfold set_rules. rewrite Hlk. now rewrite insert_id.
    - reflexivity. }
  rewrite Ev. apply (IHrs ls' F2); auto. unfold Tree.heights. lia.
Qed.

End Settled.

(** ** The claims on the selector filter *)

(** C1, as amended: when no RegExp of the ignore list has the flag [g]
    or [y] and [filterUnusedSelectors] returns, a selector is in the
    result exactly when it is in the input and it starts with [@], or
    equals a string of the ignore list, or passes the test of a RegExp
    of the ignore list, or matches in a snapshot (directly, or through
    its normal form when the direct query raises), or is rejected by a
    snapshot both as it is and in its normal form. *)
Theorem filterUnusedSelectors_keeps (doms : list dom)
    (selectors : list jsstring) (ignore : list ignore_entry)
    (st st' : gmap loc nat) (out : list jsstring) :
  stateless ignore = true ->
  filterUnusedSelectors doms selectors ignore st = (Ok out, st') ->
  forall selector,
    In selector out <->
    In selector selectors /\
    (spec_survives doms ignore selector \/
     exists d, In d doms /\ fails_open d selector = true).
Proof.
  intros Hs H selector. unfold filterUnusedSelectors in H.
  destruct (array_filter_ok _ _ selectors
              (fun x st => keep_selector_stateless doms ignore x st Hs)
              _ _ _ H) as (_ & Hall & Hin).
  rewrite Hin.
  split; intros [Hsel Hk]; (split; [assumption|]).
  - apply (keep_selector_spec doms ignore selector ∅ ∅ true Hs);
      [|reflexivity].
    now rewrite (keep_selector_stateless _ _ _ _ Hs), Hk.
  - rewrite List.Forall_forall in Hall. destruct (Hall _ Hsel) as [b Hb].
    rewrite Hb. f_equal.
    apply (keep_selector_spec doms ignore selector ∅ ∅ b Hs); [|assumption].
    now rewrite (keep_selector_stateless _ _ _ _ Hs), Hb.
Qed.

Lemma filterUnusedSelectors_keeps_witness :
  In (lit ".foo:hover") [lit ".foo:hover"; lit "a[b|=c]:hover"] <->
  In (lit ".foo:hover") [lit ".foo:hover"; lit ".bar"; lit "a[b|=c]:hover"] /\
  (spec_survives [Sample.page] [] (lit ".foo:hover") \/
   exists d, In d [Sample.page] /\ fails_open d (lit ".foo:hover") = true).
Proof.
  apply (filterUnusedSelectors_keeps [Sample.page]
           [lit ".foo:hover"; lit ".bar"; lit "a[b|=c]:hover"] [] ∅ ∅).
  - reflexivity.
  - vm_compute. reflexivity.
Defined.

(** C1 as it is stated fails in both directions.  A selector that the
    only snapshot rejects both as it is and in its normal form is
    kept, although it starts with no [@], is not ignored and matches
    nowhere.  And with [/\.a/g] in the ignore list the selector [.ab],
    which the pattern matches, is dropped after [.a]: the test starts
    at the [lastIndex] that the test of [.a] left. *)
Lemma spec_survives_not_equivalent :
  (filterUnusedSelectors [Sample.page] [lit "a[b|=c]:hover"] [] ∅
     = (Ok [lit "a[b|=c]:hover"], ∅) /\
   ~ spec_survives [Sample.page] [] (lit "a[b|=c]:hover")) /\
  (filterUnusedSelectors [] [lit ".a"; lit ".ab"] [More.dot_a_g] ∅
     = (Ok [lit ".a"], {[9%positive := O]}) /\
   spec_survives [] [More.dot_a_g] (lit ".ab")).
Proof.
  split; split.
  - vm_compute. reflexivity.
  - intros [H|[H|[[(t & H & _)|(r & x & H & _)]|(d & [<-|H] & Hm)]]];
      try contradiction; vm_compute in *; discriminate.
  - vm_compute. reflexivity.
  - right. right. left. right.
    exists 9%positive, (More.exec_text (lit ".a")).
    split; [left; reflexivity|]. vm_compute. discriminate.
Qed.

Lemma match_doms_total (doms : list dom) (selector temp : jsstring) :
  normalize selector = Ok temp -> exists b, match_doms doms selector = Ok b.
Proof.
  intros Hn. induction doms as [|d doms IH]; simpl; [eauto|].
  rewrite Hn. simpl. destruct (d selector) as [m|].
  - destruct (nonempty m); eauto.
  - destruct (d temp) as [m|]; [|eauto]. destruct (nonempty m); eauto.
Qed.



(** *** The tokens of a selector *)

Lemma has_quote_cons (c : N) (t : jsstring) :
  Regex.has_quote (c :: t) = ((c =? Js.quote)%N || Regex.has_quote t).
Proof. unfold Regex.has_quote. cbn [existsb]. now rewrite N.eqb_sym. Qed.

Lemma balanced_has_quote (t : jsstring) :
  balanced true t = true -> Regex.has_quote t = true.
Proof.
  induction t as [|c t IH]; [discriminate|].
  rewrite has_quote_cons. cbn [balanced].
  destruct (c =? Js.quote)%N; simpl; auto.
Qed.

Lemma flush_balanced (cur : jsstring) :
  (forall t, balanced false t = true -> balanced false (rev cur ++ t) = true) ->
  Forall (fun t => balanced false t = true /\ t <> []) (Regex.flush cur).
Proof.
  intros Hcur. destruct cur as [|c cur]; [constructor|].
  constructor; [|constructor]. split.
  - rewrite <- (app_nil_r (rev (c :: cur))). now apply Hcur.
  - simpl. intros E. now apply app_eq_nil in E as [_ E].
Qed.

(** Every match of the first regular expression is a token. *)
Lemma scan_balanced (s : jsstring) :
  forall inq cur,
    (forall t, balanced inq t = true -> balanced false (rev cur ++ t) = true) ->
    (inq = true -> Regex.has_quote s = true) ->
    Forall (fun t => balanced false t = true /\ t <> [])
      (Regex.scan is_space inq cur s).
Proof.
  induction s as [|c s IH]; intros inq cur Hcur Hq; simpl.
  - destruct inq; [specialize (Hq eq_refl); discriminate|].
    now apply flush_balanced.
  - assert (Hfresh : forall t, balanced false t = true ->
                       balanced false (rev [] ++ t) = true) by auto.
    destruct inq.
    + apply IH.
      * intros t Ht. simpl. rewrite <- app_assoc. apply Hcur. exact Ht.
      * specialize (Hq eq_refl). rewrite has_quote_cons in Hq.
        destruct (c =? Js.quote)%N; [discriminate|exact (fun _ => Hq)].
    + destruct (c =? Js.quote)%N eqn:Hc.
      * destruct (Regex.has_quote s) eqn:Hs.
        -- apply IH; [|auto]. intros t Ht. simpl. rewrite <- app_assoc.
           apply Hcur. simpl. now rewrite Hc.
        -- apply Forall_app. split; [now apply flush_balanced|].
           apply IH; [exact Hfresh|discriminate].
      * destruct (is_space c) eqn:Hsp.
        -- apply Forall_app. split; [now apply flush_balanced|].
           apply IH; [exact Hfresh|discriminate].
        -- apply IH; [|discriminate]. intros t Ht. simpl.
           rewrite <- app_assoc. apply Hcur. simpl. now rewrite Hc, Hsp.
Qed.

Lemma not_space_char (c : N) : is_space c = false -> (c =? Js.space)%N = false.
Proof.
  intros H. destruct (c =? Js.space)%N eqn:E; [|reflexivity].
  apply N.eqb_eq in E. subst. discriminate.
Qed.

(** On a token, the first match of the second regular expression that
    has begun goes on to the first colon outside a quoted text. *)
Lemma scan_truncates (t : jsstring) :
  forall inq cur, balanced inq t = true -> cur <> [] ->
  exists rest,
    Regex.scan (fun c => (c =? Js.space) || (c =? Js.colon))%N inq cur t
    = (rev cur ++ truncate_at_colon inq t) :: rest.
Proof.
  induction t as [|c t IH]; intros inq cur Hb Hcur; simpl in *.
  - destruct inq; [discriminate|]. exists [].
    destruct cur; [contradiction|]. now rewrite app_nil_r.
  - destruct inq.
    + destruct (IH (negb (c =? Js.quote)%N) (c :: cur) Hb) as [rest E];
        [discriminate|].
      exists rest. rewrite E. simpl. now rewrite <- app_assoc.
    + destruct (c =? Js.quote)%N eqn:Hc.
      * rewrite (balanced_has_quote _ Hb).
        destruct (IH true (c :: cur) Hb) as [rest E]; [discriminate|].
        exists rest. rewrite E. simpl. rewrite <- app_assoc.
        apply N.eqb_eq in Hc. subst c. reflexivity.
      * apply andb_true_iff in Hb as [Hsp Hb].
        apply negb_true_iff in Hsp. rewrite (not_space_char _ Hsp). simpl.
        destruct (c =? Js.colon)%N.
        -- eexists. destruct cur; [contradiction|]. simpl.
           rewrite app_nil_r. reflexivity.
        -- destruct (IH false (c :: cur) Hb) as [rest E]; [discriminate|].
           exists rest. rewrite E. simpl. now rewrite <- app_assoc.
Qed.

(** The part of C7 that holds: a token of the selector that does not
    begin with a colon is cut at its first colon outside a quoted
    text. *)
Lemma before_pseudo_truncates (s : jsstring) (tokens : list jsstring)
    (c : N) (t : jsstring) :
  Regex.re_tokens s = Some tokens -> In (c :: t) tokens -> c <> Js.colon ->
  before_pseudo (c :: t) = Ok (truncate_at_colon false (c :: t)).
Proof.
  intros Hs Hin Hc.
  assert (Hb : balanced false (c :: t) = true).
  { unfold Regex.re_tokens, Regex.match_g in Hs.
    pose proof (scan_balanced s false [] (fun t H => H)
                  (fun E => ltac:(discriminate))) as Hall.
    destruct (Regex.scan is_space false [] s); [discriminate|].
    injection Hs as <-. rewrite List.Forall_forall in Hall.
    now apply Hall. }
  apply N.eqb_neq in Hc.
  assert (E : exists rest,
    Regex.scan (fun c => (c =? Js.space) || (c =? Js.colon))%N false []
      (c :: t) = truncate_at_colon false (c :: t) :: rest).
  { simpl in *. rewrite Hc. destruct (c =? Js.quote)%N eqn:Hq.
    - rewrite (balanced_has_quote _ Hb).
      destruct (scan_truncates t true [c] Hb) as [rest E]; [discriminate|].
      exists rest. rewrite E. reflexivity.
    - apply andb_true_iff in Hb as [Hsp Hb]. apply negb_true_iff in Hsp.
      rewrite (not_space_char _ Hsp). simpl.
      destruct (scan_truncates t false [c] Hb) as [rest E]; [discriminate|].
      exists rest. rewrite E. reflexivity. }
  destruct E as [rest E]. unfold before_pseudo, Regex.re_before_pseudo,
    Regex.match_g. now rewrite E.
Qed.

(** C5 fails on the code: the normal form is computed outside the inner
    [try], so when a token of the selector has nothing before its colon
    the [TypeError] of [null[0]] leaves [filterUnusedSelectors] and
    [filterUnusedRules]. *)
Theorem filterUnusedRules_raises (st : gmap loc nat) :
  filterUnusedSelectors [Sample.page] [lit "a : hover"] [] st
    = (Raise TypeError, st) /\
  filterUnusedRules 1 [Sample.page] [1%positive] [] Sample.odd_sheet st
    = Throws TypeError Sample.odd_sheet st.
Proof. split; vm_compute; reflexivity. Qed.

(** C6 fails on the code: [replace] is called without a replacement, so
    the first comment becomes the text [undefined], and a second
    comment stays. *)
Theorem normalize_comment :
  normalize (lit ".clearfix/* legacy */:before") = Ok (lit ".clearfixundefined")
  /\ normalize (lit "a/*x*/ b/*y*/") = Ok (lit "aundefined b/*y*/").
Proof. split; vm_compute; reflexivity. Qed.

(** C7 fails on the code for a token that starts with a colon: the
    first match of the regular expression is then the name after the
    colon, not the empty text before it. *)
Theorem before_pseudo_leading_colon :
  before_pseudo (lit ":hover") = Ok (lit "hover") /\
  normalize (lit "a :hover") = Ok (lit "a hover") /\
  before_pseudo (lit "a[href=" ++ [quote] ++ lit "javascript:" ++ [quote]
                 ++ lit "]:hover")
    = Ok (lit "a[href=" ++ [quote] ++ lit "javascript:" ++ [quote] ++ lit "]").
Proof. repeat split; vm_compute; reflexivity. Qed.

(** ** The claims on the pruner *)

Lemma sample_repr :
  repr Sample.sheet Sample.sheet_rules Sample.sheet_tree Sample.sheet_objects.
Proof.
  unfold Sample.sheet_rules, Sample.sheet_tree, Sample.sheet_objects,
    Sample.before_block, Sample.block_rules, Sample.after_block, Sample.obj.
  simpl.
  repeat first
    [ apply repr_nil | apply repr_cons | apply repr_rule | eapply repr_media
    | apply repr_other | reflexivity | set_solver ].
Qed.

Lemma sample_run :
  filterUnusedRules 2 [Sample.page] Sample.sheet_rules [] Sample.sheet ∅
    = Returns Sample.sheet_out Sample.sheet_after ∅.
Proof. vm_compute. reflexivity. Qed.

(** A call that returns on the layout of a tree: the tree can be
    pruned, every node of the tree is updated under its reference, the
    references given lead to the updated nodes, the result leads to
    the pruned tree, and no other node has changed. *)
Lemma filterUnusedRules_returns (doms : list dom) (ignore : list ignore_entry)
    (fuel : nat) (h h' : store) (st st' : gmap loc nat) ls out rs F :
  repr h ls rs F -> Tree.heights rs < fuel ->
  filterUnusedRules fuel doms ls ignore h st = Returns out h' st' ->
  exists ms F1 F2,
    Tree.mark_all doms ignore rs st = (Ok ms, st') /\
    Tree.update_all doms ignore rs st = (Ok (List.map Tree.strip ms), st') /\
    Tree.prune doms ignore rs st =
      (Ok (List.filter Tree.kept (List.map Tree.strip ms)), st') /\
    out = List.filter (survives h') ls /\
    updated h h' ls rs ms /\
    repr h' ls (List.map Tree.strip ms) F1 /\
    repr h' out (List.filter Tree.kept (List.map Tree.strip ms)) F2 /\
    same_outside F h h'.
Proof.
  intros Hrepr Hfuel Hrun.
  pose proof (filterUnusedRules_simulates doms ignore fuel ls rs F h st
                Hrepr Hfuel) as Hsim.
  unfold simulates in Hsim. rewrite prune_mark, update_all_mark.
  destruct (Tree.mark_all doms ignore rs st) as [[ms|e] st1].
  - destruct Hsim as (h1 & E & Hupd & Hsame).
    rewrite Hrun in E. injection E as -> -> ->.
    destruct (updated_repr _ _ _ _ _ _ Hrepr Hupd) as (F1 & Hus & _).
    destruct (repr_filter _ _ _ _ Hus) as (F2 & Hout & _).
    exists ms, F1, F2. auto 10.
  - destruct Hsim as (h1 & E & _). rewrite Hrun in E. discriminate.
Qed.

(** C3: a call that returns prunes the nested sequence of every media
    block of the tree it is given; the block is missing from the result
    exactly when the pruned sequence is empty, and otherwise it is
    there with its condition and the pruned sequence. *)
Theorem filterUnusedRules_media (doms : list dom) (ignore : list ignore_entry)
    (fuel : nat) (h h' : store) (st st' : gmap loc nat) ls out F
    (before after nested : list Tree.rule) (c : jsstring) :
  repr h ls (before ++ Tree.Media c nested :: after) F ->
  Tree.heights (before ++ Tree.Media c nested :: after) < fuel ->
  filterUnusedRules fuel doms ls ignore h st = Returns out h' st' ->
  exists before' nested' after' F' st1 st2,
    Tree.prune doms ignore before st = (Ok before', st1) /\
    Tree.prune doms ignore nested st1 = (Ok nested', st2) /\
    Tree.prune doms ignore after st2 = (Ok after', st') /\
    repr h' out
      (before' ++
       match nested' with [] => [] | _ => [Tree.Media c nested'] end ++
       after') F'.
Proof.
  intros Hrepr Hfuel Hrun.
  destruct (filterUnusedRules_returns _ _ _ _ _ _ _ _ _ _ _ Hrepr Hfuel Hrun)
    as (ms & F1 & F2 & _ & _ & Hp & _ & _ & _ & Hout & _).
  revert Hout. generalize (List.filter Tree.kept (List.map Tree.strip ms)) Hp.
  clear Hp. intros pruned Hp Hout.
  rewrite prune_app in Hp. apply mbind_ok in Hp as (before' & st1 & Hb & Hp).
  apply mbind_ok in Hp as (rest & st3 & Hrest & Hp).
  apply mret_ok in Hp as [-> ->].
  rewrite prune_cons in Hrest.
  apply mbind_ok in Hrest as (u & st2 & Hu & Hrest).
  rewrite update_media in Hu. apply mbind_ok in Hu as (nested' & st4 & Hn & Hu).
  apply mret_ok in Hu as [-> ->].
  apply mbind_ok in Hrest as (after' & st5 & Ha & Hrest).
  apply mret_ok in Hrest as [-> ->].
  exists before', nested', after', F2, st1, st4. repeat split; try assumption.
  destruct nested'; exact Hout.
Qed.

Lemma filterUnusedRules_media_witness :
  exists before' nested' after' F' st1 st2,
    Tree.prune [Sample.page] [] Sample.before_block ∅ = (Ok before', st1) /\
    Tree.prune [Sample.page] [] Sample.block_rules st1 = (Ok nested', st2) /\
    Tree.prune [Sample.page] [] Sample.after_block st2 = (Ok after', ∅) /\
    repr Sample.sheet_after Sample.sheet_out
      (before' ++
       match nested' with
       | [] => []
       | _ => [Tree.Media (lit "screen") nested']
       end ++ after') F'.
Proof.
  apply (filterUnusedRules_media [Sample.page] [] 2 Sample.sheet
           Sample.sheet_after ∅ ∅ Sample.sheet_rules Sample.sheet_out
           Sample.sheet_objects).
  - exact sample_repr.
  - vm_compute. lia.
  - exact sample_run.
Defined.

(** C4, as amended: pruning is idempotent when no RegExp of the ignore
    list has the flag [g] or [y].  A second call, on the result of a
    call that returned and in the store that it left, returns the same
    array and leaves the store as it is. *)
Theorem filterUnusedRules_idempotent (doms : list dom)
    (ignore : list ignore_entry) (fuel : nat) (h h' : store)
    (st st' : gmap loc nat) ls out rs F :
  stateless ignore = true ->
  repr h ls rs F -> Tree.heights rs < fuel ->
  filterUnusedRules fuel doms ls ignore h st = Returns out h' st' ->
  filterUnusedRules fuel doms out ignore h' st' = Returns out h' st'.
Proof.
  intros Hs Hrepr Hfuel Hrun.
  destruct (filterUnusedRules_returns _ _ _ _ _ _ _ _ _ _ _ Hrepr Hfuel Hrun)
    as (ms & F1 & F2 & _ & _ & Hp & _ & _ & _ & Hout & _).
  apply (filterUnusedRules_settled doms ignore fuel out
           (List.filter Tree.kept (List.map Tree.strip ms)) F2);
    [assumption| |].
  - now apply (prune_settled doms ignore Hs rs st _ st').
  - apply prune_heights in Hp. lia.
Qed.

Lemma filterUnusedRules_idempotent_witness :
  filterUnusedRules 2 [Sample.page] Sample.sheet_out [] Sample.sheet_after ∅
    = Returns Sample.sheet_out Sample.sheet_after ∅.
Proof.
  apply (filterUnusedRules_idempotent [Sample.page] [] 2 Sample.sheet
           Sample.sheet_after ∅ ∅ Sample.sheet_rules Sample.sheet_out
           Sample.sheet_tree Sample.sheet_objects).
  - reflexivity.
  - exact sample_repr.
  - vm_compute. lia.
  - exact sample_run.
Defined.

(** C4 as it is stated fails: with [/\.bar/g] in the ignore list and no
    snapshot, the first call keeps the rule [.bar] and leaves the
    [lastIndex] of the RegExp at [4]; the second call, on the output of
    the first one, tests from there, finds nothing, and drops the
    rule. *)
Lemma filterUnusedRules_not_idempotent :
  filterUnusedRules 1 [] [1%positive] [More.dot_bar_g] More.bar_sheet ∅
    = Returns [1%positive] More.bar_sheet {[9%positive := 4]} /\
  filterUnusedRules 1 [] [1%positive] [More.dot_bar_g] More.bar_sheet
      {[9%positive := 4]}
    = Returns [] More.bar_sheet_after {[9%positive := O]} /\
  repr More.bar_sheet [1%positive] More.bar_tree {[1%positive]}.
Proof.
  split; [vm_compute; reflexivity|]. split; [vm_compute; reflexivity|].
  unfold More.bar_tree.
  replace ({[1%positive]} : gset loc) with ({[1%positive]} ∪ ∅ : gset loc)
    by set_solver.
  repeat constructor. set_solver.
Qed.

Lemma mark_all_stateless (doms : list dom) (ignore : list ignore_entry)
    rs (st st' : gmap loc nat) ms :
  stateless ignore = true ->
  Tree.mark_all doms ignore rs st = (Ok ms, st') -> st' = st.
Proof.
  intros Hs H.
  apply (prune_settled doms ignore Hs rs st
           (List.filter Tree.kept (List.map Tree.strip ms)) st').
  now rewrite prune_mark, H.
Qed.

(** C9, as amended: [filterUnusedRules] is a function of its arguments,
    of the store and of the [lastIndex] of the RegExps that have the
    flag [g] or [y], and it updates the nodes of its input in place.
    After a call that returns, every rule of the tree, nested and
    dropped ones too, holds its filtered selectors and its declarations,
    every media block holds those of its nested references that
    survive, the result is a new array, the given one filtered, and
    the nodes outside the tree are as they were; the [lastIndex] of
    the RegExps with the flag [g] or [y] is what the tests have left,
    and is as it was when the ignore list has no such RegExp. *)
Theorem filterUnusedRules_updates_in_place (doms : list dom)
    (ignore : list ignore_entry) (fuel : nat) (h h' : store)
    (st st' : gmap loc nat) ls out rs F :
  repr h ls rs F -> Tree.heights rs < fuel ->
  filterUnusedRules fuel doms ls ignore h st = Returns out h' st' ->
  exists ms F',
    Tree.mark_all doms ignore rs st = (Ok ms, st') /\
    updated h h' ls rs ms /\
    repr h' ls (List.map Tree.strip ms) F' /\
    out = List.filter (survives h') ls /\
    same_outside F h h' /\
    (stateless ignore = true -> st' = st).
Proof.
  intros Hrepr Hfuel Hrun.
  destruct (filterUnusedRules_returns _ _ _ _ _ _ _ _ _ _ _ Hrepr Hfuel Hrun)
    as (ms & F1 & F2 & Hms & _ & _ & Hout & Hupd & Hls & _ & Hsame).
  exists ms, F1. repeat split; try assumption.
  intros Hs. now apply (mark_all_stateless doms ignore rs st st' ms).
Qed.

Lemma filterUnusedRules_updates_in_place_witness :
  exists ms F',
    Tree.mark_all [Sample.page] [] Sample.sheet_tree ∅ = (Ok ms, ∅) /\
    updated Sample.sheet Sample.sheet_after Sample.sheet_rules
      Sample.sheet_tree ms /\
    repr Sample.sheet_after Sample.sheet_rules (List.map Tree.strip ms) F' /\
    Sample.sheet_out
      = List.filter (survives Sample.sheet_after) Sample.sheet_rules /\
    same_outside Sample.sheet_objects Sample.sheet Sample.sheet_after /\
    (stateless [] = true -> (∅ : gmap loc nat) = ∅).
Proof.
  apply (filterUnusedRules_updates_in_place [Sample.page] [] 2).
  - exact sample_repr.
  - vm_compute. lia.
  - exact sample_run.
Defined.

(** C9 as it is stated fails: the call assigns to the [selectors] field
    of the rule it is given. *)
Lemma filterUnusedRules_changes_input :
  filterUnusedRules 2 [Sample.page] Sample.sheet_rules [] Sample.sheet ∅
    = Returns Sample.sheet_out Sample.sheet_after ∅ /\
  Sample.sheet !! 1%positive = Some (RuleNode [lit ".foo"; lit ".bar"] []) /\
  Sample.sheet_after !! 1%positive = Some (RuleNode [lit ".foo"] []) /\
  Sample.sheet_after <> Sample.sheet.
Proof.
  split; [vm_compute; reflexivity|]. split; [reflexivity|].
  split; [reflexivity|]. intros E.
  apply (f_equal (fun m : store => m !! 1%positive)) in E.
  vm_compute in E. discriminate.
Qed.

(** ** The claims on the collaborators *)

(** With no extra media, the query takes every style sheet link of the
    page, whatever its [media] attribute. *)
Lemma extractStylesheets_default (page : list element) :
  extractStylesheets (Cheerio.load page) []
  = Some (List.map (fun x => attribs x !! lit "href")
            (List.filter is_stylesheet_link page)).
Proof.
  unfold extractStylesheets, Cheerio.load.
  set (sel := media_selector []).
  assert (E : Cheerio.parse sel = Some
    [[Cheerio.Tag (lit "link"); Cheerio.AttrEq (lit "rel") (lit "stylesheet");
      Cheerio.NotTag (lit "media")];
     [Cheerio.Tag (lit "link"); Cheerio.AttrEq (lit "rel") (lit "stylesheet");
      Cheerio.AttrEq (lit "media") (lit "screen")];
     [Cheerio.Tag (lit "link"); Cheerio.AttrEq (lit "rel") (lit "stylesheet");
      Cheerio.AttrEq (lit "media") (lit "all")]]) by (vm_compute; reflexivity).
  rewrite E. do 2 f_equal. apply List.filter_ext. intros e.
  unfold Cheerio.matches, is_stylesheet_link. cbn [existsb forallb].
  unfold Cheerio.matches_simple, Js.eqb.
  destruct (bool_decide (tag e = lit "link")) eqn:Ht; [|reflexivity].
  apply bool_decide_eq_true in Ht.
  assert (Hm : bool_decide (tag e = lit "media") = false).
  { apply bool_decide_eq_false. rewrite Ht. discriminate. }
  rewrite Hm. destruct (attribs e !! lit "rel") as [v|]; [|reflexivity].
  destruct (bool_decide (v = lit "stylesheet")); reflexivity.
Qed.

(** C8 fails on the code: [:not(media)] excludes the elements named
    [media], not the links with a [media] attribute, so the first
    alternative of the selector takes every style sheet link, the one
    for print included. *)
Theorem extractStylesheets_takes_print :
  extractStylesheets (Cheerio.load Sample.links) []
    = Some [Some (lit "a.css"); Some (lit "p.css"); Some (lit "s.css")].
Proof. vm_compute. reflexivity. Qed.

Lemma starts_with_app (prefix s : jsstring) :
  starts_with prefix s = true <-> exists rest, s = prefix ++ rest.
Proof.
  unfold starts_with, Js.eqb. rewrite bool_decide_eq_true. split.
  - intros E. exists (drop (length prefix) s).
    rewrite <- E at 1. symmetry. apply take_drop.
  - intros [rest ->]. now rewrite take_app_length.
Qed.

(** C10: [mapReadFiles] decides by the prefix [http] alone.  A name
    that begins with these four characters is requested as a URL; any
    other name is read from the disk when it exists there, and
    otherwise gives the message [Error - could not open: ] followed by
    the path under the current directory. *)
Theorem mapReadFiles_by_prefix (w : world) (files : list jsstring) (i : nat)
    (filename : jsstring) :
  files !! i = Some filename ->
  ((exists rest, filename = lit "http" ++ rest) ->
   mapReadFiles w files !! i
     = Some (Request filename [(lit "User-Agent", lit "UnCSS")])) /\
  ((forall rest, filename <> lit "http" ++ rest) ->
   exists_sync w filename = true ->
   mapReadFiles w files !! i = Some (ReadFile filename (lit "utf8"))) /\
  ((forall rest, filename <> lit "http" ++ rest) ->
   exists_sync w filename = false ->
   mapReadFiles w files !! i
     = Some (Done (lit "Error - could not open: " ++ join_cwd w filename))).
Proof.
  intros Hi.
  assert (E : mapReadFiles w files !! i = Some (read_one w filename)).
  { unfold mapReadFiles. change (List.map (read_one w) files) with
      (read_one w <$> files). now rewrite list_lookup_fmap, Hi. }
  rewrite E. unfold read_one.
  destruct (starts_with (lit "http") filename) eqn:Hp.
  - apply starts_with_app in Hp as [rest ->].
    split; [reflexivity|]. split; intros Hno; now destruct (Hno rest).
  - split.
    + intros Hyes. apply starts_with_app in Hyes. congruence.
    + split; intros _ ->; reflexivity.
Qed.

Lemma mapReadFiles_by_prefix_witness :
  mapReadFiles Sample.disk
    [lit "httpdocs/a.css"; lit "main.css"; lit "x.css"] !! 0
    = Some (Request (lit "httpdocs/a.css") [(lit "User-Agent", lit "UnCSS")])
  /\
  mapReadFiles Sample.disk
    [lit "httpdocs/a.css"; lit "main.css"; lit "x.css"] !! 1
    = Some (ReadFile (lit "main.css") (lit "utf8")) /\
  mapReadFiles Sample.disk
    [lit "httpdocs/a.css"; lit "main.css"; lit "x.css"] !! 2
    = Some (Done (lit "Error - could not open: /srv/x.css")).
Proof.
  split; [|split].
  - apply (proj1 (mapReadFiles_by_prefix Sample.disk
                    [lit "httpdocs/a.css"; lit "main.css"; lit "x.css"] 0
                    (lit "httpdocs/a.css") eq_refl)).
    exists (lit "docs/a.css"). reflexivity.
  - apply (proj1 (proj2 (mapReadFiles_by_prefix Sample.disk
                    [lit "httpdocs/a.css"; lit "main.css"; lit "x.css"] 1
                           (lit "main.css") eq_refl))).
    + intros rest E. discriminate E.
    + reflexivity.
  - apply (proj2 (proj2 (mapReadFiles_by_prefix Sample.disk
                    [lit "httpdocs/a.css"; lit "main.css"; lit "x.css"] 2
                           (lit "x.css") eq_refl))).
    + intros rest E. discriminate E.
    + reflexivity.
Defined.

(** * More of the selector filter *)

(** X1: the selectors that [filterUnusedSelectors] returns are
    selectors of its input, in the order of the input: nothing is added
    and nothing is moved. *)
Theorem filterUnusedSelectors_sublist (doms : list dom)
    (selectors : list jsstring) (ignore : list ignore_entry)
    (st st' : gmap loc nat) (out : list jsstring) :
  filterUnusedSelectors doms selectors ignore st = (Ok out, st') ->
  sublist out selectors.
Proof. unfold filterUnusedSelectors. apply array_filter_sub. Qed.

Lemma filterUnusedSelectors_sublist_witness :
  sublist [lit ".foo:hover"; lit "a[b|=c]:hover"]
          [lit ".foo:hover"; lit ".bar"; lit "a[b|=c]:hover"].
Proof.
  apply (filterUnusedSelectors_sublist [Sample.page] _ [] ∅ ∅).
  vm_compute. reflexivity.
Defined.

(** X2: with no snapshot at all and no RegExp that has the flag [g] or
    [y], [filterUnusedSelectors] raises nothing, writes nothing and
    keeps the selectors that start with [@] or are ignored, and only
    them. *)
Theorem filterUnusedSelectors_no_doms (selectors : list jsstring)
    (ignore : list ignore_entry) (st : gmap loc nat) :
  stateless ignore = true ->
  filterUnusedSelectors [] selectors ignore st
  = (Ok (List.filter (fun s => is_at_rule s || ignore_has ignore s
                               || ignore_matches ignore s) selectors), st).
Proof.
  intros Hs. unfold filterUnusedSelectors.
  induction selectors as [|s selectors IH]; [reflexivity|].
  rewrite array_filter_cons. cbn [List.filter].
  unfold keep_selector at 1. rewrite (stateless_tests _ _ _ Hs).
  destruct (is_at_rule s); [now rewrite IH|].
  destruct (ignore_has ignore s); [now rewrite IH|].
  destruct (ignore_matches ignore s); now rewrite IH.
Qed.

Lemma filterUnusedSelectors_no_doms_witness :
  filterUnusedSelectors [] [lit "@page"; lit ".foo"; lit ".bar"; lit "b"]
    [IgnoreString (lit ".bar"); IgnoreRegExp (Js.eqb (lit "b"))] ∅
  = (Ok [lit "@page"; lit ".bar"; lit "b"], ∅).
Proof.
  apply (filterUnusedSelectors_no_doms
           [lit "@page"; lit ".foo"; lit ".bar"; lit "b"]
           [IgnoreString (lit ".bar"); IgnoreRegExp (Js.eqb (lit "b"))] ∅).
  reflexivity.
Defined.

Lemma match_doms_raises (doms : list dom) (selector : jsstring) :
  match_doms doms selector = Raise TypeError <->
  normalize selector = Raise TypeError /\
  exists before d after,
    doms = before ++ d :: after /\ d selector = None /\
    Forall (fun d' => d' selector = Some []) before.
Proof.
  split.
  - induction doms as [|d doms IH]; simpl; [discriminate|].
    destruct (d selector) as [m|] eqn:Hd.
    + destruct m as [|x m]; simpl; [|discriminate].
      intros H. destruct (IH H) as (Hn & pre & d' & post & -> & Hd' & Hpre).
      split; [exact Hn|]. exists (d :: pre), d', post. auto.
    + destruct (normalize selector) as [temp|[]] eqn:Hn; simpl.
      * destruct (d temp) as [[|x m]|]; simpl; try discriminate.
        intros H. destruct (IH H) as (Hn' & _). discriminate.
      * intros _. split; [reflexivity|]. exists [], d, doms. auto.
  - intros (Hn & pre & d & post & -> & Hd & Hpre).
    induction Hpre as [|d' pre Hd' _ IH]; simpl.
    + now rewrite Hd, Hn.
    + now rewrite Hd'.
Qed.

(** X3: in any state of the RegExp objects, the callback of the filter
    raises exactly when the selector neither starts with [@] nor
    equals a string of the ignore list, no test of the loop over the
    ignore list succeeds (a RegExp with the flag [g] or [y] being
    tested from its [lastIndex]), the normal form cannot be computed,
    and some snapshot rejects the selector after every snapshot before
    it has answered with no element. *)
Theorem keep_selector_raises (doms : list dom) (ignore : list ignore_entry)
    (selector : jsstring) (st : gmap loc nat) :
  fst (keep_selector doms ignore selector st) = Raise TypeError <->
  is_at_rule selector = false /\ ignore_has ignore selector = false /\
  fst (ignore_tests ignore selector st) = false /\
  normalize selector = Raise TypeError /\
  exists before d after,
    doms = before ++ d :: after /\ d selector = None /\
    Forall (fun d' => d' selector = Some []) before.
Proof.
  unfold keep_selector. rewrite <- match_doms_raises.
  destruct (is_at_rule selector);
    [split; [discriminate|intros (? & _); discriminate]|].
  destruct (ignore_has ignore selector);
    [split; [discriminate|intros (_ & ? & _); discriminate]|].
  destruct (ignore_tests ignore selector st) as [[|] st1]; simpl;
    [split; [discriminate|intros (_ & _ & ? & _); discriminate]|].
  tauto.
Qed.

(** X4: when every snapshot can read the selector, the callback raises
    nothing and never looks at the normal form: in any state of the
    RegExp objects, the selector is kept exactly when it starts with
    [@], equals a string of the ignore list, passes a test of the loop
    over the ignore list, or has an element in some snapshot. *)
Theorem keep_selector_readable (doms : list dom) (ignore : list ignore_entry)
    (selector : jsstring) (st : gmap loc nat) :
  Forall (fun d => d selector <> None) doms ->
  fst (keep_selector doms ignore selector st)
  = Ok (is_at_rule selector || ignore_has ignore selector
        || fst (ignore_tests ignore selector st)
        || existsb (fun d => match d selector with
                             | Some m => nonempty m
                             | None => false
                             end) doms).
Proof.
  intros Hall. unfold keep_selector.
  destruct (is_at_rule selector); [reflexivity|].
  destruct (ignore_has ignore selector); [reflexivity|].
  destruct (ignore_tests ignore selector st) as [[|] st1]; [reflexivity|].
  simpl.
  induction Hall as [|d doms Hd _ IH]; simpl; [reflexivity|].
  destruct (d selector) as [m|]; [|contradiction].
  destruct (nonempty m); [reflexivity|exact IH].
Qed.

Lemma keep_selector_readable_witness :
  fst (keep_selector [Sample.page; Sample.page] [More.dot_bar_g] (lit ".bar")
         {[9%positive := 4]}) = Ok false.
Proof.
  rewrite (keep_selector_readable [Sample.page; Sample.page] [More.dot_bar_g]
             (lit ".bar") {[9%positive := 4]}).
  - vm_compute. reflexivity.
  - repeat constructor; discriminate.
Defined.

(** X5: when no RegExp of the ignore list has the flag [g] or [y],
    filtering again the selectors that a call has returned, with the
    same snapshots and ignore list, returns them all. *)
Theorem filterUnusedSelectors_again (doms : list dom)
    (selectors : list jsstring) (ignore : list ignore_entry)
    (st st' : gmap loc nat) (out : list jsstring) :
  stateless ignore = true ->
  filterUnusedSelectors doms selectors ignore st = (Ok out, st') ->
  filterUnusedSelectors doms out ignore st' = (Ok out, st').
Proof.
  intros Hs H.
  now destruct (filterUnusedSelectors_fixed _ _ _ _ _ _ Hs H) as [_ E].
Qed.

Lemma filterUnusedSelectors_again_witness :
  filterUnusedSelectors [Sample.page]
    [lit ".foo:hover"; lit "a[b|=c]:hover"] [] ∅
  = (Ok [lit ".foo:hover"; lit "a[b|=c]:hover"], ∅).
Proof.
  apply (filterUnusedSelectors_again [Sample.page]
           [lit ".foo:hover"; lit ".bar"; lit "a[b|=c]:hover"] [] ∅ ∅).
  - reflexivity.
  - vm_compute. reflexivity.
Defined.

(** * More of the normalisation *)

Lemma tokens_balanced (s : jsstring) (tokens : list jsstring) (t : jsstring) :
  Regex.re_tokens s = Some tokens -> In t tokens -> balanced false t = true.
Proof.
  unfold Regex.re_tokens, Regex.match_g. intros Hs Hin.
  pose proof (scan_balanced s false [] (fun t Ht => Ht)
                (fun E => ltac:(discriminate))) as Hall.
  destruct (Regex.scan is_space false [] s); [discriminate|].
  injection Hs as <-. rewrite List.Forall_forall in Hall. now apply Hall.
Qed.

(** X6: the split of a selector gives at least one token, and every
    token is not empty, has its quotes paired and has no white space
    outside a quoted text. *)
Theorem re_tokens_shape (s : jsstring) (tokens : list jsstring) :
  Regex.re_tokens s = Some tokens ->
  tokens <> [] /\
  Forall (fun t => t <> [] /\ balanced false t = true) tokens.
Proof.
  unfold Regex.re_tokens, Regex.match_g. intros H.
  pose proof (scan_balanced s false [] (fun t Ht => Ht)
                (fun E => ltac:(discriminate))) as Hall.
  destruct (Regex.scan is_space false [] s) as [|t ts]; [discriminate|].
  injection H as <-. split; [discriminate|].
  eapply Forall_impl; [exact Hall|]. simpl. tauto.
Qed.

Lemma re_tokens_shape_witness :
  [lit "a:hover"; lit ">"; lit "b"] <> [] /\
  Forall (fun t => t <> [] /\ balanced false t = true)
    [lit "a:hover"; lit ">"; lit "b"].
Proof.
  apply (re_tokens_shape (lit "a:hover  > b")).
  vm_compute. reflexivity.
Defined.

Lemma before_pseudo_colon (t : jsstring) :
  before_pseudo (Js.colon :: t) = before_pseudo t.
Proof. reflexivity. Qed.

Lemma before_pseudo_balanced (c : N) (t : jsstring) :
  balanced false (c :: t) = true -> c <> Js.colon ->
  before_pseudo (c :: t) = Ok (truncate_at_colon false (c :: t)).
Proof.
  intros Hb Hc. apply N.eqb_neq in Hc.
  assert (E : exists rest,
    Regex.scan (fun c => (c =? Js.space) || (c =? Js.colon))%N false []
      (c :: t) = truncate_at_colon false (c :: t) :: rest).
  { simpl in *. rewrite Hc. destruct (c =? Js.quote)%N eqn:Hq.
    - rewrite (balanced_has_quote _ Hb).
      destruct (scan_truncates t true [c] Hb) as [rest E]; [discriminate|].
      exists rest. rewrite E. reflexivity.
    - apply andb_true_iff in Hb as [Hsp Hb]. apply negb_true_iff in Hsp.
      rewrite (not_space_char _ Hsp). simpl.
      destruct (scan_truncates t false [c] Hb) as [rest E]; [discriminate|].
      exists rest. rewrite E. reflexivity. }
  destruct E as [rest E]. unfold before_pseudo, Regex.re_before_pseudo,
    Regex.match_g. now rewrite E.
Qed.

(** What the callback of [.map] returns on a token: the text between
    the colons at its head and the next colon outside a quoted text,
    and a [TypeError] when the token is made of colons. *)
Lemma before_pseudo_drop (t : jsstring) :
  balanced false t = true ->
  before_pseudo t = match drop_colons t with
                    | [] => Raise TypeError
                    | t' => Ok (truncate_at_colon false t')
                    end.
Proof.
  induction t as [|c t IH]; intros Hb; [reflexivity|].
  cbn [drop_colons]. destruct (c =? Js.colon)%N eqn:Hc.
  - apply N.eqb_eq in Hc. subst c. rewrite before_pseudo_colon.
    apply IH. exact Hb.
  - apply N.eqb_neq in Hc. now apply before_pseudo_balanced.
Qed.

(** X7: on every token of a selector, the callback of [.map] returns
    the text between the colons at the head of the token and the next
    colon outside a quoted text; it raises when the token is made of
    colons only. *)
Theorem before_pseudo_token (s : jsstring) (tokens : list jsstring)
    (t : jsstring) :
  Regex.re_tokens s = Some tokens -> In t tokens ->
  before_pseudo t = match drop_colons t with
                    | [] => Raise TypeError
                    | t' => Ok (truncate_at_colon false t')
                    end.
Proof.
  intros Hs Hin. apply before_pseudo_drop. exact (tokens_balanced _ _ _ Hs Hin).
Qed.

Lemma before_pseudo_token_witness :
  before_pseudo (lit "::before:x")
  = match drop_colons (lit "::before:x") with
    | [] => Raise TypeError
    | t' => Ok (truncate_at_colon false t')
    end.
Proof.
  apply (before_pseudo_token (lit "a ::before:x")
           [lit "a"; lit "::before:x"]).
  - vm_compute. reflexivity.
  - simpl. auto.
Defined.

Lemma array_map_raises {A B} (f : A -> result B) (a : list A) :
  (exists e, array_map f a = Raise e) <->
  exists x, In x a /\ exists e, f x = Raise e.
Proof.
  induction a as [|x a IH]; simpl.
  - split; [intros [e H]; discriminate|intros (x & [] & _)].
  - destruct (f x) as [y|e] eqn:Hx; simpl.
    + destruct (array_map f a) as [ys|e] eqn:Ha; simpl.
      * split; [intros [e H]; discriminate|].
        intros (x' & [<-|Hin] & e & He); [congruence|].
        destruct IH as [_ IH]. destruct IH as [e' He']; [eauto|discriminate].
      * split; [|eauto]. intros _.
        destruct IH as [IH _]. destruct IH as (x' & Hin & He); eauto.
    + split; [|eauto]. intros _. exists x. eauto.
Qed.

(** X8: the normal form cannot be computed exactly when, after the
    replacement of the comment, the selector has no token, or has a
    token made of colons only. *)
Theorem normalize_raises (selector : jsstring) :
  normalize selector = Raise TypeError <->
  Regex.re_tokens (Regex.replace_comment selector) = None \/
  exists tokens t,
    Regex.re_tokens (Regex.replace_comment selector) = Some tokens /\
    In t tokens /\ drop_colons t = [].
Proof.
  unfold normalize.
  destruct (Regex.re_tokens (Regex.replace_comment selector))
    as [tokens|] eqn:Hs; [|tauto].
  assert (Hraise : forall t, In t tokens ->
            (exists e, before_pseudo t = Raise e) <-> drop_colons t = []).
  { intros t Hin.
    rewrite (before_pseudo_drop t (tokens_balanced _ _ _ Hs Hin)).
    destruct (drop_colons t); split; try discriminate; eauto.
    intros [e H]. discriminate. }
  pose proof (array_map_raises before_pseudo tokens) as Hmap.
  split.
  - intros H. right. exists tokens.
    destruct Hmap as [Hmap _]. destruct Hmap as (t & Hin & He).
    + destruct (array_map before_pseudo tokens); [discriminate|eauto].
    + exists t. repeat split; auto. now apply Hraise.
  - intros [H|(tokens' & t & E & Hin & Hd)]; [discriminate|].
    injection E as <-. destruct Hmap as [_ Hmap].
    destruct Hmap as [[] E].
    + exists t. split; [assumption|]. now apply Hraise.
    + now rewrite E.
Qed.

Lemma comment_end_body (body after : jsstring) :
  forallb (fun c => negb (is_line_terminator c || (c =? Js.star)%N)) body
    = true ->
  Regex.comment_end (body ++ Js.star :: Js.slash :: after) = Some after.
Proof.
  induction body as [|c body IH]; intros Hb; [reflexivity|].
  cbn [forallb] in Hb. apply andb_true_iff in Hb as [Hc Hb].
  apply negb_true_iff, orb_false_iff in Hc as [Hlt Hstar].
  specialize (IH Hb). cbn [app Regex.comment_end].
  destruct (body ++ Js.star :: Js.slash :: after) as [|d rest] eqn:E.
  - destruct body; discriminate.
  - now rewrite Hstar, Hlt.
Qed.

(** X9: the first comment of a selector, when it stands on one line, is
    replaced by the text [undefined]; what comes before it and all that
    follows it, later comments included, stay as they are. *)
Theorem replace_comment_first (before body after : jsstring) :
  forallb (fun c => negb (c =? Js.slash)%N) before = true ->
  forallb (fun c => negb (is_line_terminator c || (c =? Js.star)%N)) body
    = true ->
  Regex.replace_comment
    (before ++ Js.slash :: Js.star :: body ++ Js.star :: Js.slash :: after)
  = before ++ undefined_text ++ after.
Proof.
  intros Hpre Hbody. induction before as [|c before IH].
  - cbn [app Regex.replace_comment]. rewrite !N.eqb_refl. simpl andb.
    cbv iota. now rewrite (comment_end_body body after Hbody).
  - cbn [forallb] in Hpre. apply andb_true_iff in Hpre as [Hc Hpre].
    apply negb_true_iff in Hc. specialize (IH Hpre).
    cbn [app Regex.replace_comment].
    destruct (before ++ Js.slash :: Js.star :: body
              ++ Js.star :: Js.slash :: after) as [|d rest] eqn:E.
    + destruct before; discriminate.
    + rewrite Hc. simpl andb. cbv iota. now rewrite IH.
Qed.

Lemma replace_comment_first_witness :
  Regex.replace_comment
    (lit "a " ++ Js.slash :: Js.star :: lit " x " ++ Js.star :: Js.slash
     :: lit " b /* y */")
  = lit "a " ++ undefined_text ++ lit " b /* y */".
Proof.
  apply (replace_comment_first (lit "a ") (lit " x ") (lit " b /* y */"));
    reflexivity.
Defined.

Lemma scan_plain (stop : N -> bool) (s : jsstring) :
  forall cur,
    forallb (fun c => negb (stop c || (c =? Js.quote)%N)) s = true ->
    Regex.scan stop false cur s = Regex.flush (rev s ++ cur).
Proof.
  induction s as [|c s IH]; intros cur Hs; [reflexivity|].
  cbn [forallb] in Hs. apply andb_true_iff in Hs as [Hc Hs].
  apply negb_true_iff, orb_false_iff in Hc as [Hstop Hq].
  cbn [Regex.scan]. rewrite Hq, Hstop, (IH _ Hs).
  simpl. now rewrite <- app_assoc.
Qed.

Lemma replace_comment_no_slash (s : jsstring) :
  forallb (fun c => negb (c =? Js.slash)%N) s = true ->
  Regex.replace_comment s = s.
Proof.
  induction s as [|c s IH]; intros Hs; [reflexivity|].
  cbn [forallb] in Hs. apply andb_true_iff in Hs as [Hc Hs].
  apply negb_true_iff in Hc. cbn [Regex.replace_comment].
  destruct s as [|d rest]; [reflexivity|].
  rewrite Hc. simpl andb. cbv iota. now rewrite (IH Hs).
Qed.

Lemma normalize_plain_ok (selector : jsstring) :
  plain selector = true -> selector <> [] -> normalize selector = Ok selector.
Proof.
  intros Hp Hne. unfold plain in Hp. rewrite forallb_forall in Hp.
  assert (Hchar : forall c, In c selector ->
    is_space c = false /\ (c =? Js.colon)%N = false /\
    (c =? Js.quote)%N = false /\ (c =? Js.slash)%N = false).
  { intros c Hc. specialize (Hp c Hc). apply negb_true_iff in Hp.
    do 3 (apply orb_false_iff in Hp as [Hp ?]). repeat split; assumption. }
  unfold normalize. rewrite replace_comment_no_slash.
  2:{ apply forallb_forall. intros c Hc.
      destruct (Hchar c Hc) as (_ & _ & _ & ->). reflexivity. }
  unfold Regex.re_tokens, Regex.match_g. rewrite scan_plain.
  2:{ apply forallb_forall. intros c Hc.
      destruct (Hchar c Hc) as (-> & _ & -> & _). reflexivity. }
  rewrite app_nil_r. destruct selector as [|c s]; [contradiction|].
  unfold Regex.flush.
  destruct (rev (c :: s)) as [|x xs] eqn:E.
  { apply (f_equal (@length N)) in E. rewrite length_rev in E.
    discriminate. }
  rewrite <- E, rev_involutive. cbn [array_map].
  unfold before_pseudo, Regex.re_before_pseudo, Regex.match_g.
  rewrite scan_plain.
  2:{ apply forallb_forall. intros c' Hc.
      destruct (Hchar c' Hc) as (Hsp & -> & -> & _).
      now rewrite (not_space_char _ Hsp). }
  rewrite app_nil_r. unfold Regex.flush. rewrite E, <- E, rev_involutive.
  reflexivity.
Qed.

(** X10: a selector of one token, with no white space, quote or slash,
    that does not begin with a colon has for normal form its text
    before the first colon. *)
Theorem normalize_one_token (c : N) (t : jsstring) :
  one_token (c :: t) = true -> c <> Js.colon ->
  normalize (c :: t) = Ok (truncate_at_colon false (c :: t)).
Proof.
  intros Hp Hc. unfold one_token in Hp. rewrite forallb_forall in Hp.
  assert (Hchar : forall x, In x (c :: t) ->
    is_space x = false /\ (x =? Js.quote)%N = false /\
    (x =? Js.slash)%N = false).
  { intros x Hx. specialize (Hp x Hx). apply negb_true_iff in Hp.
    do 2 (apply orb_false_iff in Hp as [Hp ?]). repeat split; assumption. }
  unfold normalize. rewrite replace_comment_no_slash.
  2:{ apply forallb_forall. intros x Hx.
      destruct (Hchar x Hx) as (_ & _ & ->). reflexivity. }
  unfold Regex.re_tokens, Regex.match_g. rewrite scan_plain.
  2:{ apply forallb_forall. intros x Hx.
      destruct (Hchar x Hx) as (-> & -> & _). reflexivity. }
  rewrite app_nil_r. unfold Regex.flush.
  destruct (rev (c :: t)) as [|x xs] eqn:E.
  { apply (f_equal (@length N)) in E. rewrite length_rev in E.
    discriminate. }
  rewrite <- E, rev_involutive. cbn [array_map].
  rewrite before_pseudo_balanced; [reflexivity| |exact Hc].
  clear E Hp Hc x xs. generalize dependent (c :: t). intros s.
  induction s as [|y s IH]; intros Hchar; [reflexivity|].
  cbn [balanced]. destruct (Hchar y (or_introl eq_refl)) as (-> & -> & _).
  simpl. apply IH. intros z Hz. apply Hchar. now right.
Qed.

Lemma normalize_one_token_witness :
  normalize (lit "a.b:hover::after") = Ok (lit "a.b").
Proof.
  apply (normalize_one_token 97 (lit ".b:hover::after"));
    [reflexivity|discriminate].
Defined.

(** X11: a selector with nothing to strip that some snapshot rejects is
    kept: the second query is the first one again, and it is rejected
    again. *)
Theorem keep_selector_plain_rejected (doms : list dom)
    (ignore : list ignore_entry) (selector : jsstring) (d : dom)
    (st : gmap loc nat) :
  plain selector = true -> selector <> [] ->
  In d doms -> d selector = None ->
  fst (keep_selector doms ignore selector st) = Ok true.
Proof.
  intros Hp Hne Hin Hd. unfold keep_selector.
  destruct (is_at_rule selector); [reflexivity|].
  destruct (ignore_has ignore selector); [reflexivity|].
  destruct (ignore_tests ignore selector st) as [[|] st1]; [reflexivity|].
  pose proof (normalize_plain_ok selector Hp Hne) as Hn.
  destruct (match_doms_total doms selector selector Hn) as [b Hb].
  simpl. rewrite Hb. f_equal.
  apply (match_doms_hit doms selector d b Hin); [|exact Hb].
  right. unfold fails_open. now rewrite Hd, Hn, Hd.
Qed.

Lemma keep_selector_plain_rejected_witness :
  fst (keep_selector [Sample.page] [] (lit "ul>li.item") ∅) = Ok true.
Proof.
  apply (keep_selector_plain_rejected [Sample.page] [] (lit "ul>li.item")
           Sample.page); [reflexivity|discriminate|simpl; auto|reflexivity].
Defined.

(** * More of the pruner *)

Lemma filterUnusedRules_result (fuel : nat) (doms : list dom)
    (ignore : list ignore_entry) (h h' : store) (st st' : gmap loc nat)
    (rules out : list loc) :
  filterUnusedRules fuel doms rules ignore h st = Returns out h' st' ->
  out = List.filter (survives h') rules.
Proof.
  destruct fuel as [|fuel]; simpl; [discriminate|].
  destruct (forEach _ rules h st) as [[] h1 st1|e h1 st1|]; try discriminate.
  intros H. now injection H as <- <- _.
Qed.

(** X12: whatever the store holds, the array that [filterUnusedRules]
    returns is made of references of the array it was given, in the
    same order. *)
Theorem filterUnusedRules_sublist (fuel : nat) (doms : list dom)
    (ignore : list ignore_entry) (h h' : store) (st st' : gmap loc nat)
    (rules out : list loc) :
  filterUnusedRules fuel doms rules ignore h st = Returns out h' st' ->
  sublist out rules.
Proof.
  intros H. rewrite (filterUnusedRules_result _ _ _ _ _ _ _ _ _ H).
  clear H. induction rules as [|l rules IH]; simpl; [constructor|].
  destruct (survives h' l); [apply sublist_skip|apply sublist_cons]; exact IH.
Qed.

Lemma filterUnusedRules_sublist_witness :
  sublist Sample.sheet_out Sample.sheet_rules.
Proof.
  apply (filterUnusedRules_sublist 2 [Sample.page] [] Sample.sheet
           Sample.sheet_after ∅ ∅).
  exact sample_run.
Defined.

Lemma repr_nth (h : store) ls rs F (i : nat) (l : loc) :
  repr h ls rs F -> ls !! i = Some l ->
  exists r F', rs !! i = Some r /\ repr_node h l r F'.
Proof.
  revert ls F i. induction rs as [|r rs IH]; intros ls F i H Hi;
    inversion H as [|l0 ls' r' rs' F1 F2 Hn Hl Hdisj]; subst.
  - discriminate.
  - destruct i as [|i]; simpl in *.
    + injection Hi as <-. eauto.
    + eauto.
Qed.

Lemma updated_nth (h h' : store) ls rs ms (i : nat) (l : loc) :
  updated h h' ls rs ms -> ls !! i = Some l ->
  exists r m, rs !! i = Some r /\ ms !! i = Some m /\ updated_node h h' l r m.
Proof.
  intros H. revert i. induction H as [|l0 ls r rs m ms Hn Hl IH]; intros i Hi.
  - discriminate.
  - destruct i as [|i]; simpl in *.
    + injection Hi as <-. eauto.
    + eauto.
Qed.

(** The state in which the node at index [i] is visited is the one
    that the update of the nodes before it leaves. *)
Lemma mark_all_nth (doms : list dom) (ignore : list ignore_entry) rs :
  forall st ms st' i r,
  Tree.mark_all doms ignore rs st = (Ok ms, st') -> rs !! i = Some r ->
  exists before st1 m st2,
    Tree.mark_all doms ignore (take i rs) st = (Ok before, st1) /\
    Tree.mark doms ignore r st1 = (Ok m, st2) /\ ms !! i = Some m.
Proof.
  induction rs as [|r0 rs IH]; intros st ms st' i r H Hi; [discriminate|].
  rewrite mark_all_cons in H.
  destruct (Tree.mark doms ignore r0 st) as [[m0|e] st1] eqn:Hm;
    [|discriminate].
  destruct (Tree.mark_all doms ignore rs st1) as [[ms0|e] st2] eqn:Hms;
    [|discriminate].
  injection H as <- <-. destruct i as [|i]; simpl in *.
  - injection Hi as <-. exists [], st, m0, st1. auto.
  - destruct (IH _ _ _ _ _ Hms Hi) as (before & st3 & m & st4 & Hb & Hr & Hi').
    exists (m0 :: before), st3, m, st4. rewrite mark_all_cons, Hm, Hb. auto.
Qed.

(** What a call that returns has done to a node of the array it was
    given: the node holds the update of its tree. *)
Lemma node_after (doms : list dom) (ignore : list ignore_entry) (fuel : nat)
    (h h' : store) (st st' : gmap loc nat) ls out rs F (l : loc) :
  repr h ls rs F -> Tree.heights rs < fuel ->
  filterUnusedRules fuel doms ls ignore h st = Returns out h' st' ->
  In l ls ->
  exists i r m before st1 st2,
    ls !! i = Some l /\ rs !! i = Some r /\
    Tree.mark_all doms ignore (take i rs) st = (Ok before, st1) /\
    Tree.mark doms ignore r st1 = (Ok m, st2) /\
    updated_node h h' l r m /\ (In l out <-> survives h' l = true).
Proof.
  intros Hrepr Hfuel Hrun Hin.
  destruct (filterUnusedRules_returns _ _ _ _ _ _ _ _ _ _ _ Hrepr Hfuel Hrun)
    as (ms & F1 & F2 & Hms & _ & _ & Hout & Hupd & _).
  pose proof Hin as Hi.
  apply list_elem_of_In, list_elem_of_lookup in Hi as [i Hi].
  destruct (updated_nth _ _ _ _ _ _ _ Hupd Hi) as (r & m & Hr & Hm & Hnode).
  destruct (mark_all_nth _ _ _ _ _ _ _ _ Hms Hr)
    as (before & st1 & m' & st2 & Hb & Hmark & Hm').
  rewrite Hm in Hm'. injection Hm' as <-.
  exists i, r, m, before, st1, st2. repeat split; try assumption.
  - rewrite Hout, filter_In. tauto.
  - intros Hs. rewrite Hout, filter_In. auto.
Qed.

(** The selectors that a filter keeps, one by one: the callback is
    called on a selector in the state that the selectors before it
    have left. *)
Lemma array_filter_nonempty {A} (f : A -> M bool) (a : list A) :
  forall st out st', array_filter f a st = (Ok out, st') ->
  (out <> [] <->
   exists pre x post kept st1 st2,
     a = pre ++ x :: post /\ array_filter f pre st = (Ok kept, st1) /\
     f x st1 = (Ok true, st2)).
Proof.
  induction a as [|x a IH]; intros st out st' H.
  - apply mret_ok in H as [-> _]. split; [contradiction|].
    intros (pre & y & post & _ & _ & _ & E & _). now destruct pre.
  - rewrite array_filter_cons in H.
    destruct (f x st) as [[b|e] st1] eqn:Hx; [|discriminate].
    destruct (array_filter f a st1) as [[ys|e] st2] eqn:Hys; [|discriminate].
    injection H as <- <-. destruct b.
    + split; [|discriminate]. intros _.
      exists [], x, a, [], st, st1. auto.
    + rewrite (IH _ _ _ Hys). split.
      * intros (pre & y & post & kept & st3 & st4 & -> & Hpre & Hy).
        exists (x :: pre), y, post, kept, st3, st4.
        split; [reflexivity|]. split; [|exact Hy].
        now rewrite array_filter_cons, Hx, Hpre.
      * intros (pre & y & post & kept & st3 & st4 & E & Hpre & Hy).
        destruct pre as [|x' pre]; simpl in E; injection E as <- ->.
        -- apply mret_ok in Hpre as [_ ->]. congruence.
        -- rewrite array_filter_cons, Hx in Hpre.
           destruct (array_filter f pre st1) as [[k|e] st5] eqn:Hk;
             [|discriminate].
           injection Hpre as _ <-. exists pre, y, post, k, st5, st4. auto.
Qed.

(** X13: after a call that returns, a rule of the given array holds
    its filtered selectors, with its declarations as they were, and it
    is in the result exactly when the callback of the filter has
    returned true on one of its selectors.  The selectors are filtered
    in the state that the update of the nodes before the rule has left
    the RegExp objects in. *)
Theorem filterUnusedRules_rule (doms : list dom) (ignore : list ignore_entry)
    (fuel : nat) (h h' : store) (st st' : gmap loc nat) ls out rs F (l : loc)
    (s : list jsstring) (d : list declaration) :
  repr h ls rs F -> Tree.heights rs < fuel ->
  filterUnusedRules fuel doms ls ignore h st = Returns out h' st' ->
  In l ls -> h !! l = Some (RuleNode s d) ->
  exists i before v st1 st2,
    ls !! i = Some l /\
    Tree.mark_all doms ignore (take i rs) st = (Ok before, st1) /\
    filterUnusedSelectors doms s ignore st1 = (Ok v, st2) /\
    h' !! l = Some (RuleNode v d) /\
    (In l out <->
     exists pre selector post kept st3 st4,
       s = pre ++ selector :: post /\
       filterUnusedSelectors doms pre ignore st1 = (Ok kept, st3) /\
       keep_selector doms ignore selector st3 = (Ok true, st4)).
Proof.
  intros Hrepr Hfuel Hrun Hin Hl.
  destruct (node_after _ _ _ _ _ _ _ _ _ _ _ _ Hrepr Hfuel Hrun Hin)
    as (i & r & m & before & st1 & st2 & Hi & Hr & Hb & Hm & Hnode & Hout).
  inversion Hnode as [? s0 v d0 Hl0 Hl'| |]; subst; rewrite Hl in *;
    try discriminate.
  injection Hl0 as <- <-. simpl in Hm.
  apply mbind_ok in Hm as (v' & st3 & Hv & Hm).
  apply mret_ok in Hm as [Hm ->]. injection Hm as ->.
  exists i, before, v', st1, st3. repeat split; try assumption.
  - intros Ho. apply (array_filter_nonempty _ _ _ _ _ Hv).
    apply Hout in Ho. unfold survives in Ho. rewrite Hl' in Ho.
    intros ->. discriminate.
  - intros Hk. apply Hout. unfold survives. rewrite Hl'.
    apply (array_filter_nonempty _ _ _ _ _ Hv) in Hk. now destruct v'.
Qed.

Lemma filterUnusedRules_rule_witness :
  exists i before v st1 st2,
    Sample.sheet_rules !! i = Some 1%positive /\
    Tree.mark_all [Sample.page] [] (take i Sample.sheet_tree) ∅
      = (Ok before, st1) /\
    filterUnusedSelectors [Sample.page] [lit ".foo"; lit ".bar"] [] st1
      = (Ok v, st2) /\
    Sample.sheet_after !! 1%positive = Some (RuleNode v []) /\
    (In 1%positive Sample.sheet_out <->
     exists pre selector post kept st3 st4,
       [lit ".foo"; lit ".bar"] = pre ++ selector :: post /\
       filterUnusedSelectors [Sample.page] pre [] st1 = (Ok kept, st3) /\
       keep_selector [Sample.page] [] selector st3 = (Ok true, st4)).
Proof.
  apply (filterUnusedRules_rule [Sample.page] [] 2 Sample.sheet
           Sample.sheet_after ∅ ∅ Sample.sheet_rules Sample.sheet_out
           Sample.sheet_tree Sample.sheet_objects).
  - exact sample_repr.
  - vm_compute. lia.
  - exact sample_run.
  - simpl. auto.
  - reflexivity.
Defined.

(** X14: a node that is neither a rule nor a media block is in the
    result of a call that returns, and the store holds it as it was. *)
Theorem filterUnusedRules_other (doms : list dom) (ignore : list ignore_entry)
    (fuel : nat) (h h' : store) (st st' : gmap loc nat) ls out rs F (l : loc)
    (t b : jsstring) :
  repr h ls rs F -> Tree.heights rs < fuel ->
  filterUnusedRules fuel doms ls ignore h st = Returns out h' st' ->
  In l ls -> h !! l = Some (OtherNode t b) ->
  In l out /\ h' !! l = Some (OtherNode t b).
Proof.
  intros Hrepr Hfuel Hrun Hin Hl.
  destruct (node_after _ _ _ _ _ _ _ _ _ _ _ _ Hrepr Hfuel Hrun Hin)
    as (i & r & m & before & st1 & st2 & Hi & Hr & Hb & Hm & Hnode & Hout).
  inversion Hnode as [| |? t' b' Hl0 Hl']; subst; rewrite Hl in *;
    try discriminate.
  injection Hl0 as <- <-.
  split; [|exact Hl']. apply Hout. unfold survives. now rewrite Hl'.
Qed.

Lemma filterUnusedRules_other_witness :
  In 7%positive Sample.sheet_out /\
  Sample.sheet_after !! 7%positive = Some (OtherNode (lit "font-face") []).
Proof.
  apply (filterUnusedRules_other [Sample.page] [] 2 Sample.sheet
           Sample.sheet_after ∅ ∅ Sample.sheet_rules Sample.sheet_out
           Sample.sheet_tree Sample.sheet_objects).
  - exact sample_repr.
  - vm_compute. lia.
  - exact sample_run.
  - simpl. auto.
  - reflexivity.
Defined.

Lemma ignore_matches_tests (ignore : list ignore_entry) (selector : jsstring)
    (st : gmap loc nat) :
  ignore_matches ignore selector = true ->
  fst (ignore_tests ignore selector st) = true.
Proof.
  unfold ignore_matches. revert st.
  induction ignore as [|[s|t|r x] ignore IH]; intros st; simpl;
    [discriminate|auto| |].
  - destruct (t selector); [reflexivity|auto].
  - intros H. destruct (test_g r x selector st) as [[|] st1];
      [reflexivity|auto].
Qed.

Lemma array_filter_keeps {A} (f : A -> M bool) (x : A) (a : list A) :
  (forall st, fst (f x st) = Ok true) ->
  forall st out st', array_filter f a st = (Ok out, st') ->
  In x a -> In x out.
Proof.
  intros Hx. induction a as [|y a IH]; intros st out st' H Hin;
    [destruct Hin|].
  rewrite array_filter_cons in H.
  destruct (f y st) as [[b|e] st1] eqn:Hy; [|discriminate].
  destruct (array_filter f a st1) as [[ys|e] st2] eqn:Hys; [|discriminate].
  injection H as <- <-. destruct Hin as [->|Hin].
  - specialize (Hx st). rewrite Hy in Hx. injection Hx as ->. now left.
  - specialize (IH _ _ _ Hys Hin). destruct b; [now right|assumption].
Qed.

(** X15: a rule with a selector that starts with [@], or equals a
    string of the ignore list, or passes the test of a RegExp of the
    ignore list that has neither the flag [g] nor [y], keeps this
    selector and is in the result of every call that returns, whatever
    the snapshots, the other entries of the ignore list and the state
    of the RegExp objects are. *)
Theorem filterUnusedRules_ignored (doms : list dom)
    (ignore : list ignore_entry) (fuel : nat) (h : store)
    (st : gmap loc nat) ls rs F
    (l : loc) (s : list jsstring) (d : list declaration)
    (selector : jsstring) :
  repr h ls rs F -> Tree.heights rs < fuel ->
  In l ls -> h !! l = Some (RuleNode s d) -> In selector s ->
  is_at_rule selector || ignore_has ignore selector
  || ignore_matches ignore selector = true ->
  match filterUnusedRules fuel doms ls ignore h st with
  | Returns out h' _ =>
      In l out /\
      exists v, h' !! l = Some (RuleNode v d) /\ In selector v
  | Throws _ _ _ => True
  | OutOfFuel => False
  end.
Proof.
  intros Hrepr Hfuel Hin Hl Hsel Hign.
  destruct (filterUnusedRules fuel doms ls ignore h st)
    as [out h' st'|e h' st'|] eqn:Hrun; [|exact I|].
  2:{ pose proof (filterUnusedRules_simulates doms ignore fuel ls rs F h st
                    Hrepr Hfuel) as Hsim.
      unfold simulates in Hsim. rewrite Hrun in Hsim.
      destruct (Tree.mark_all doms ignore rs st) as [[ms|e] st1];
        destruct Hsim as (h1 & E & _); discriminate E. }
  destruct (node_after _ _ _ _ _ _ _ _ _ _ _ _ Hrepr Hfuel Hrun Hin)
    as (i & r & m & before & st1 & st2 & Hi & Hr & Hb & Hm & Hnode & Hout).
  inversion Hnode as [? s0 v d0 Hl0 Hl'| |]; subst; rewrite Hl in *;
    try discriminate.
  injection Hl0 as <- <-. simpl in Hm.
  apply mbind_ok in Hm as (v' & st3 & Hv & Hm).
  apply mret_ok in Hm as [Hm ->]. injection Hm as ->.
  assert (Hk : forall st0, fst (keep_selector doms ignore selector st0)
                           = Ok true).
  { intros st0. unfold keep_selector.
    destruct (is_at_rule selector); [reflexivity|].
    destruct (ignore_has ignore selector); [reflexivity|].
    simpl in Hign. pose proof (ignore_matches_tests _ _ st0 Hign) as Ht.
    destruct (ignore_tests ignore selector st0) as [[|] st4];
      [reflexivity|discriminate]. }
  assert (Hv' : In selector v')
    by exact (array_filter_keeps _ _ _ Hk _ _ _ Hv Hsel).
  split; [|eauto]. apply Hout. unfold survives. rewrite Hl'.
  now destruct v'.
Qed.

Lemma filterUnusedRules_ignored_witness :
  match filterUnusedRules 1 [] [1%positive]
          [More.dot_bar_g; IgnoreString (lit ".kept")] More.ignored_sheet
          {[9%positive := 4]} with
  | Returns out h' _ =>
      In 1%positive out /\
      exists v, h' !! 1%positive = Some (RuleNode v []) /\
                In (lit ".kept") v
  | Throws _ _ _ => True
  | OutOfFuel => False
  end.
Proof.
  apply (filterUnusedRules_ignored []
           [More.dot_bar_g; IgnoreString (lit ".kept")] 1 More.ignored_sheet
           {[9%positive := 4]} [1%positive] More.ignored_tree {[1%positive]}
           1%positive [lit ".bar"; lit ".kept"] [] (lit ".kept")).
  - unfold More.ignored_tree.
    replace ({[1%positive]} : gset loc) with ({[1%positive]} ∪ ∅ : gset loc)
      by set_solver.
    repeat constructor. set_solver.
  - vm_compute. lia.
  - simpl. auto.
  - reflexivity.
  - simpl. auto.
  - reflexivity.
Defined.

(** X16: on a tree laid out in the store, with fuel above its nesting
    depth, the call returns as soon as the pruning of the tree is
    defined, its result leads to the pruned tree, and it leaves the
    RegExp objects as the pruning of the tree does. *)
Theorem filterUnusedRules_refines (doms : list dom)
    (ignore : list ignore_entry) (fuel : nat) (h : store)
    (st st' : gmap loc nat) ls rs F (pruned : list Tree.rule) :
  repr h ls rs F -> Tree.heights rs < fuel ->
  Tree.prune doms ignore rs st = (Ok pruned, st') ->
  exists out h' F',
    filterUnusedRules fuel doms ls ignore h st = Returns out h' st' /\
    repr h' out pruned F'.
Proof.
  intros Hrepr Hfuel Hp.
  pose proof (filterUnusedRules_simulates doms ignore fuel ls rs F h st
                Hrepr Hfuel) as Hsim.
  unfold simulates in Hsim. rewrite prune_mark in Hp.
  destruct (Tree.mark_all doms ignore rs st) as [[ms|e] st1]; [|discriminate].
  injection Hp as <- <-.
  destruct Hsim as (h' & Hrun & Hupd & _).
  destruct (updated_repr _ _ _ _ _ _ Hrepr Hupd) as (F1 & Hus & _).
  destruct (repr_filter _ _ _ _ Hus) as (F2 & Hout & _).
  eauto.
Qed.

Lemma filterUnusedRules_refines_witness :
  exists out h' F',
    filterUnusedRules 2 [Sample.page] Sample.sheet_rules [] Sample.sheet ∅
      = Returns out h' ∅ /\
    repr h' out More.pruned_tree F'.
Proof.
  apply (filterUnusedRules_refines [Sample.page] [] 2 Sample.sheet ∅ ∅
           Sample.sheet_rules Sample.sheet_tree Sample.sheet_objects).
  - exact sample_repr.
  - vm_compute. lia.
  - vm_compute. reflexivity.
Defined.

(** X17: on a tree laid out in the store, when the pruning of the tree
    raises, the call raises the same exception, and the nodes outside
    the tree are as they were. *)
Theorem filterUnusedRules_throws (doms : list dom)
    (ignore : list ignore_entry) (fuel : nat) (h : store)
    (st st' : gmap loc nat) ls rs F (e : exn) :
  repr h ls rs F -> Tree.heights rs < fuel ->
  Tree.prune doms ignore rs st = (Raise e, st') ->
  exists h',
    filterUnusedRules fuel doms ls ignore h st = Throws e h' st' /\
    same_outside F h h'.
Proof.
  intros Hrepr Hfuel Hp.
  pose proof (filterUnusedRules_simulates doms ignore fuel ls rs F h st
                Hrepr Hfuel) as Hsim.
  unfold simulates in Hsim. rewrite prune_mark in Hp.
  destruct (Tree.mark_all doms ignore rs st) as [[ms|e'] st1]; [discriminate|].
  injection Hp as -> ->. exact Hsim.
Qed.

Lemma filterUnusedRules_throws_witness :
  exists h',
    filterUnusedRules 1 [Sample.page] [1%positive] [] Sample.odd_sheet ∅
      = Throws TypeError h' ∅ /\
    same_outside ({[1%positive]} ∪ ∅) Sample.odd_sheet h'.
Proof.
  apply (filterUnusedRules_throws [Sample.page] [] 1 Sample.odd_sheet ∅ ∅
           [1%positive] More.odd_tree).
  - unfold More.odd_tree. repeat constructor. set_solver.
  - vm_compute. lia.
  - vm_compute. reflexivity.
Defined.

(** X18: an exception does not undo what was done before it: when the
    second rule of the array raises, the call raises with the first
    rule already holding its filtered selectors. *)
Theorem filterUnusedRules_not_atomic (doms : list dom)
    (ignore : list ignore_entry) (fuel : nat) (h : store)
    (st st1 st2 : gmap loc nat)
    (l1 l2 : loc) (rest : list loc) (s1 v1 s2 : list jsstring)
    (d1 d2 : list declaration) (e : exn) :
  l1 <> l2 ->
  h !! l1 = Some (RuleNode s1 d1) -> h !! l2 = Some (RuleNode s2 d2) ->
  filterUnusedSelectors doms s1 ignore st = (Ok v1, st1) ->
  filterUnusedSelectors doms s2 ignore st1 = (Raise e, st2) ->
  filterUnusedRules (S fuel) doms (l1 :: l2 :: rest) ignore h st
  = Throws e (<[l1 := RuleNode v1 d1]> h) st2.
Proof.
  intros Hne H1 H2 Hv1 He. simpl. unfold visit at 1. rewrite H1, Hv1.
  unfold set_selectors. rewrite H1. unfold visit at 1.
  rewrite lookup_insert_ne by exact Hne. now rewrite H2, He.
Qed.

Lemma filterUnusedRules_not_atomic_witness :
  filterUnusedRules 1 [Sample.page] [1%positive; 2%positive] []
    More.half_sheet ∅
  = Throws TypeError
      (<[1%positive := RuleNode [lit ".foo"] []]> More.half_sheet) ∅.
Proof.
  apply (filterUnusedRules_not_atomic [Sample.page] [] 0 More.half_sheet
           ∅ ∅ ∅ 1%positive 2%positive [] [lit ".foo"; lit ".bar"]
           [lit ".foo"] [lit "a : hover"] [] [] TypeError).
  - discriminate.
  - reflexivity.
  - reflexivity.
  - vm_compute. reflexivity.
  - vm_compute. reflexivity.
Defined.

(** * phantom_eval *)

Lemma index_of_found (needle hay : jsstring) :
  index_of needle hay <> None <->
  exists before after, hay = before ++ needle ++ after.
Proof.
  induction hay as [|c hay IH]; simpl.
  - destruct (starts_with needle []) eqn:E.
    + apply starts_with_app in E as [rest E]. split; [|discriminate].
      intros _. exists [], rest. exact E.
    + split; [contradiction|]. intros (pre & post & H).
      symmetry in H. apply app_eq_nil in H as [-> H].
      assert (E' : starts_with needle [] = true)
        by (apply starts_with_app; eauto).
      congruence.
  - destruct (starts_with needle (c :: hay)) eqn:E.
    + apply starts_with_app in E as [rest E]. split; [|discriminate].
      intros _. exists [], rest. exact E.
    + split.
      * intros H. destruct (index_of needle hay); [|contradiction].
        destruct IH as [IH _]. destruct IH as (pre & post & ->);
          [discriminate|]. exists (c :: pre), post. reflexivity.
      * intros (pre & post & H). destruct pre as [|c' pre].
        -- assert (E' : starts_with needle (c :: hay) = true)
             by (apply starts_with_app; eauto).
           congruence.
        -- simpl in H. injection H as <- ->.
           destruct IH as [_ IH]. destruct (index_of needle _);
             [discriminate|]. exfalso. apply IH; eauto.
Qed.

Lemma lacks_text (marker text : jsstring) (err : jsvalue)
    (stderr : jsstring) :
  (if truthy err then err else JsString stderr) = JsString text ->
  exists b, lacks marker err stderr = Ok b /\
    (b = false <-> exists before after, text = before ++ marker ++ after).
Proof.
  intros E. unfold lacks. rewrite E.
  pose proof (index_of_found marker text) as H.
  destruct (index_of marker text) as [i|].
  - exists false. split; [reflexivity|]. split; [|reflexivity].
    intros _. apply H. discriminate.
  - exists true. split; [reflexivity|]. split; [discriminate|].
    intros H'. apply H in H'. contradiction.
Qed.

Lemma handler_text (text : jsstring) (err : jsvalue)
    (stdout stderr : jsstring) :
  (if truthy err then err else JsString stderr) = JsString text ->
  (mentions_note text ->
   phantom_eval_handler err stdout stderr = Ok (Success stdout)) /\
  (~ mentions_note text ->
   phantom_eval_handler err stdout stderr
   = Ok (if truthy err then Failure err
         else if truthy (JsString stderr) then Failure (JsString stderr)
         else Success stdout)).
Proof.
  intros E. unfold phantom_eval_handler, mentions_note.
  destruct (lacks_text osx_warning text err stderr E) as (b1 & -> & H1).
  destruct (lacks_text performance_note text err stderr E) as (b2 & -> & H2).
  cbn [rbind]. split.
  - intros (pre & post & [H|H]).
    + assert (b1 = false) as -> by (apply H1; eauto).
      cbn [andb]. now rewrite !andb_false_r.
    + assert (b2 = false) as -> by (apply H2; eauto).
      now rewrite !andb_false_r.
  - intros Hno. destruct b1.
    + destruct b2.
      * cbn [andb]. rewrite !andb_true_r.
        destruct (truthy err); [reflexivity|].
        destruct (truthy (JsString stderr)); reflexivity.
      * exfalso. apply Hno. destruct H2 as [H2 _].
        destruct (H2 eq_refl) as (pre & post & H). eauto.
    + exfalso. apply Hno. destruct H1 as [H1 _].
      destruct (H1 eq_refl) as (pre & post & H). eauto.
Qed.

Lemma classic_mentions (text : jsstring) :
  mentions_note text \/ ~ mentions_note text.
Proof.
  unfold mentions_note.
  pose proof (index_of_found osx_warning text) as H1.
  pose proof (index_of_found performance_note text) as H2.
  destruct (index_of osx_warning text) as [i|].
  { left. destruct H1 as [H1 _]. destruct H1 as (pre & post & H);
      [discriminate|eauto]. }
  destruct (index_of performance_note text) as [i|].
  { left. destruct H2 as [H2 _]. destruct H2 as (pre & post & H);
      [discriminate|eauto]. }
  right. intros (pre & post & [H|H]).
  - apply H1; eauto.
  - apply H2; eauto.
Qed.

(** X19: when [execFile] reports no error, the callback gets the page
    exactly when the diagnostic output is empty or mentions, anywhere,
    one of the two notes; otherwise it gets the diagnostic output as
    its error. *)
Theorem phantom_eval_no_error (stdout stderr : jsstring) :
  (phantom_eval_handler JsNull stdout stderr = Ok (Success stdout) <->
   stderr = [] \/ mentions_note stderr) /\
  (phantom_eval_handler JsNull stdout stderr
     = Ok (Failure (JsString stderr)) <->
   stderr <> [] /\ ~ mentions_note stderr).
Proof.
  destruct (handler_text stderr JsNull stdout stderr eq_refl) as [Hyes Hno].
  simpl in Hno. split; split.
  - intros H. destruct stderr as [|c t]; [now left|]. right.
    destruct (classic_mentions (c :: t)) as [Hm|Hm]; [exact Hm|].
    rewrite (Hno Hm) in H. discriminate.
  - intros [->|Hm]; [reflexivity|now apply Hyes].
  - intros H. destruct stderr as [|c t]; [discriminate|].
    split; [discriminate|]. intros Hm. rewrite (Hyes Hm) in H. discriminate.
  - intros [Hne Hm]. rewrite (Hno Hm).
    destruct stderr; [contradiction|reflexivity].
Qed.

(** X20: when [execFile] reports a failure, its [err] is an [Error]
    object, which has no method [indexOf]: the handler raises a
    [TypeError] at its first line and never calls the callback,
    whatever the outputs of the process are. *)
Theorem phantom_eval_error_object (message stdout stderr : jsstring) :
  phantom_eval_handler (JsError message) stdout stderr = Raise TypeError.
Proof. reflexivity. Qed.

(** * More of extractStylesheets *)

Lemma span_stop (p : N -> bool) (a : jsstring) (c : N) (rest : jsstring) :
  forallb p a = true -> p c = false ->
  Cheerio.span p (a ++ c :: rest) = (a, c :: rest).
Proof.
  intros Ha Hc. induction a as [|x a IH]; cbn [app Cheerio.span].
  - now rewrite Hc.
  - cbn [forallb] in Ha. apply andb_true_iff in Ha as [Hx Ha].
    now rewrite Hx, (IH Ha).
Qed.

Lemma strip_prefix_app (p rest : jsstring) :
  Cheerio.strip_prefix p (p ++ rest) = Some rest.
Proof.
  unfold Cheerio.strip_prefix.
  assert (E : starts_with p (p ++ rest) = true)
    by (apply starts_with_app; eauto).
  rewrite E. f_equal. apply drop_app_length.
Qed.

Lemma name_char_plain (c : N) :
  Cheerio.is_name_char c = true ->
  (c =? Js.quote)%N = false /\ is_line_terminator c = false.
Proof.
  unfold Cheerio.is_name_char, is_line_terminator, Js.quote. intros H.
  repeat rewrite orb_true_iff in H. repeat rewrite andb_true_iff in H.
  repeat rewrite N.leb_le in H. repeat rewrite N.eqb_eq in H.
  repeat rewrite orb_false_iff. repeat rewrite N.eqb_neq. lia.
Qed.

(** The value of an attribute test that is a word is read as it is. *)
Lemma attr_value_word (value rest : jsstring) :
  media_word value = true ->
  Cheerio.attr_value (value ++ Js.quote :: 93%N :: rest) = Some (value, rest).
Proof.
  unfold media_word. induction value as [|c value IH]; intros Hv.
  - reflexivity.
  - cbn [forallb] in Hv. apply andb_true_iff in Hv as [Hc Hv].
    destruct (name_char_plain c Hc) as [Hq Hlt].
    cbn [app Cheerio.attr_value]. now rewrite Hq, Hlt, (IH Hv).
Qed.

Lemma parse_simples_attr (fuel : nat) (name value rest : jsstring) :
  name <> [] -> forallb Cheerio.is_name_char name = true ->
  media_word value = true ->
  Cheerio.parse_simples (S fuel)
    (91%N :: name ++ (lit "=" ++ [Js.quote]) ++ value
     ++ (Js.quote :: lit "]") ++ rest)
  = Cheerio.cons_simple (Cheerio.AttrEq name value)
      (Cheerio.parse_simples fuel rest).
Proof.
  intros Hne Hname Hvalue. cbn [Cheerio.parse_simples].
  change ((lit "=" ++ [Js.quote]) ++ value ++ (Js.quote :: lit "]") ++ rest)
    with (61%N :: ([Js.quote] ++ value ++ (Js.quote :: lit "]") ++ rest)).
  rewrite (span_stop _ name 61%N _ Hname eq_refl).
  destruct name as [|c name]; [contradiction|].
  change (61%N :: [Js.quote] ++ value ++ (Js.quote :: lit "]") ++ rest)
    with ((lit "=" ++ [Js.quote]) ++ (value ++ Js.quote :: 93%N :: rest)).
  rewrite strip_prefix_app.
  now rewrite (attr_value_word value rest Hvalue).
Qed.

Lemma parse_simples_not (fuel : nat) (name rest : jsstring) :
  name <> [] -> forallb Cheerio.is_name_char name = true ->
  Cheerio.parse_simples (S fuel) (58%N :: lit "not(" ++ name ++ 41%N :: rest)
  = Cheerio.cons_simple (Cheerio.NotTag name)
      (Cheerio.parse_simples fuel rest).
Proof.
  intros Hne Hname. cbn [Cheerio.parse_simples].
  rewrite strip_prefix_app.
  rewrite (span_stop _ name 41%N _ Hname eq_refl).
  destruct name as [|c name]; [contradiction|]. reflexivity.
Qed.

Lemma parse_simples_end (fuel : nat) (rest : jsstring) :
  ends_compound rest -> Cheerio.parse_simples (S fuel) rest = Some ([], rest).
Proof. intros [->|[r ->]]; reflexivity. Qed.

Lemma parse_compound_media (m rest : jsstring) :
  media_word m = true -> ends_compound rest ->
  Cheerio.parse_compound (media_alternative m ++ rest)
  = Some (link_rel ++ [Cheerio.AttrEq (lit "media") m], rest).
Proof.
  intros Hm Hrest.
  assert (E : media_alternative m ++ rest
    = lit "link" ++ 91%N :: lit "rel" ++ (lit "=" ++ [Js.quote])
      ++ lit "stylesheet" ++ (Js.quote :: lit "]")
      ++ (91%N :: lit "media" ++ (lit "=" ++ [Js.quote]) ++ m
          ++ (Js.quote :: lit "]") ++ rest)).
  { unfold media_alternative, link_stylesheet. rewrite <- !app_assoc.
    reflexivity. }
  rewrite E. unfold Cheerio.parse_compound.
  rewrite (span_stop Cheerio.is_name_char (lit "link") 91%N _ eq_refl eq_refl).
  match goal with |- context [S (length ?s)] =>
    destruct (length s) as [|[|k]] eqn:El;
      [discriminate El|discriminate El|] end.
  rewrite parse_simples_attr by (reflexivity || discriminate).
  rewrite parse_simples_attr by (assumption || reflexivity || discriminate).
  rewrite parse_simples_end by assumption. reflexivity.
Qed.

Lemma parse_compound_not_media (rest : jsstring) :
  ends_compound rest ->
  Cheerio.parse_compound (link_stylesheet ++ lit ":not(media)" ++ rest)
  = Some (link_rel ++ [Cheerio.NotTag (lit "media")], rest).
Proof.
  intros Hrest.
  change (link_stylesheet ++ lit ":not(media)" ++ rest)
    with (lit "link" ++ 91%N :: lit "rel" ++ (lit "=" ++ [Js.quote])
      ++ lit "stylesheet" ++ (Js.quote :: lit "]")
      ++ (58%N :: lit "not(" ++ lit "media" ++ 41%N :: rest)).
  unfold Cheerio.parse_compound.
  rewrite (span_stop Cheerio.is_name_char (lit "link") 91%N _ eq_refl eq_refl).
  match goal with |- context [S (length ?s)] =>
    destruct (length s) as [|[|k]] eqn:El;
      [discriminate El|discriminate El|] end.
  rewrite parse_simples_attr by (reflexivity || discriminate).
  rewrite parse_simples_not by (reflexivity || discriminate).
  rewrite parse_simples_end by assumption. reflexivity.
Qed.

Lemma skip_pad (pad : jsstring) (m rest : jsstring) :
  pad_ok pad ->
  snd (Cheerio.span is_space (pad ++ media_alternative m ++ rest))
  = media_alternative m ++ rest.
Proof. intros [->| ->]; reflexivity. Qed.

Lemma media_alternative_length (m : jsstring) :
  1 <= length (media_alternative m).
Proof.
  unfold media_alternative, link_stylesheet. rewrite !length_app. simpl. lia.
Qed.

Lemma join_length (ms : list jsstring) :
  length ms <= length (join (lit ", ") (List.map media_alternative ms)).
Proof.
  induction ms as [|m ms IH]; [simpl; lia|].
  pose proof (media_alternative_length m) as Hm.
  destruct ms as [|m' ms]; [simpl in *; lia|].
  change (join (lit ", ") (List.map media_alternative (m :: m' :: ms)))
    with (media_alternative m ++ lit ", "
          ++ join (lit ", ") (List.map media_alternative (m' :: ms))).
  rewrite !length_app. simpl in *. lia.
Qed.

Lemma parse_group_media (ms : list jsstring) :
  ms <> [] ->
  Forall (fun m => media_word m = true) ms ->
  forall fuel pad, pad_ok pad -> length ms <= fuel ->
  Cheerio.parse_group fuel
    (pad ++ join (lit ", ") (List.map media_alternative ms))
  = Some (List.map
            (fun m => link_rel ++ [Cheerio.AttrEq (lit "media") m]) ms).
Proof.
  induction ms as [|m ms IH]; [contradiction|].
  intros _ Hall fuel pad Hpad Hfuel.
  inversion Hall as [|? ? Hm Hms]; subst.
  destruct fuel as [|fuel]; [simpl in Hfuel; lia|].
  destruct ms as [|m' ms].
  - change (join (lit ", ") (List.map media_alternative [m]))
      with (media_alternative m).
    cbn [Cheerio.parse_group].
    rewrite <- (app_nil_r (media_alternative m)).
    rewrite (skip_pad pad m [] Hpad).
    rewrite (parse_compound_media m [] Hm (or_introl eq_refl)).
    reflexivity.
  - change (join (lit ", ") (List.map media_alternative (m :: m' :: ms)))
      with (media_alternative m ++ 44%N :: [Js.space]
            ++ join (lit ", ") (List.map media_alternative (m' :: ms))).
    cbn [Cheerio.parse_group].
    rewrite (skip_pad pad m _ Hpad).
    rewrite (parse_compound_media m _ Hm (or_intror (ex_intro _ _ eq_refl))).
    change (snd (Cheerio.span is_space (44%N :: ?r))) with (44%N :: r).
    cbv iota beta.
    rewrite (IH ltac:(discriminate) Hms fuel [Js.space] (or_intror eq_refl))
      by (simpl in *; lia).
    reflexivity.
Qed.

Lemma uniq_In (seen a : list jsstring) (x : jsstring) :
  In x (uniq seen a) -> In x a.
Proof.
  revert seen. induction a as [|y a IH]; intros seen; simpl; [tauto|].
  destruct (existsb (Js.eqb y) seen); simpl; [eauto|].
  intros [->|H]; eauto.
Qed.

Lemma parse_media_selector (media : list jsstring) :
  Forall (fun m => media_word m = true) media ->
  Cheerio.parse (media_selector media)
  = Some ((link_rel ++ [Cheerio.NotTag (lit "media")])
          :: List.map
               (fun m => link_rel ++ [Cheerio.AttrEq (lit "media") m])
               (union [lit "screen"; lit "all"] media)).
Proof.
  intros Hall. unfold Cheerio.parse.
  set (ms := union [lit "screen"; lit "all"] media).
  assert (Hne : ms <> []) by discriminate.
  assert (Hms : Forall (fun m =>
            media_word m = true) ms).
  { apply List.Forall_forall. intros x Hx. apply uniq_In in Hx.
    simpl in Hx. destruct Hx as [<-|[<-|Hx]]; [reflexivity..|].
    rewrite List.Forall_forall in Hall. auto. }
  change (media_selector media)
    with (link_stylesheet ++ lit ":not(media)"
          ++ 44%N :: join (lit ", ") (List.map media_alternative ms)).
  set (J := join (lit ", ") (List.map media_alternative ms)).
  cbn [Cheerio.parse_group].
  change (snd (Cheerio.span is_space
                 (link_stylesheet ++ lit ":not(media)" ++ 44%N :: J)))
    with (link_stylesheet ++ lit ":not(media)" ++ 44%N :: J).
  rewrite (parse_compound_not_media _ (or_intror (ex_intro _ _ eq_refl))).
  change (snd (Cheerio.span is_space (44%N :: J))) with (44%N :: J).
  cbv iota beta.
  rewrite (parse_group_media ms Hne Hms _ [] (or_introl eq_refl)).
  - reflexivity.
  - pose proof (join_length ms) as Hj. fold J in Hj. clearbody J.
    rewrite !length_app. cbn [length]. lia.
Qed.

Lemma link_rel_matches (e : element) :
  forallb (Cheerio.matches_simple e) link_rel = is_stylesheet_link e.
Proof.
  unfold link_rel, is_stylesheet_link. cbn [forallb Cheerio.matches_simple].
  now rewrite andb_true_r.
Qed.

(** X21: whatever extra media are configured, as long as they are
    words (letters, digits, [-] and [_]), [extractStylesheets] returns
    the [href] of every style sheet link of the page, in the order of
    the page and whatever the [media] attribute of the link. *)
Theorem extractStylesheets_any_media (page : list element)
    (media : list jsstring) :
  Forall (fun m => media_word m = true) media ->
  extractStylesheets (Cheerio.load page) media
  = Some (List.map (fun x => attribs x !! lit "href")
            (List.filter is_stylesheet_link page)).
Proof.
  intros Hall. unfold extractStylesheets, Cheerio.load.
  rewrite (parse_media_selector media Hall). do 2 f_equal.
  apply List.filter_ext. intros e. unfold Cheerio.matches.
  cbn [existsb]. rewrite forallb_app, link_rel_matches.
  destruct (is_stylesheet_link e) eqn:He.
  - unfold is_stylesheet_link in He. apply andb_true_iff in He as [Ht _].
    unfold Js.eqb in Ht. apply bool_decide_eq_true in Ht.
    cbn [forallb Cheerio.matches_simple]. unfold Js.eqb at 1.
    rewrite Ht. reflexivity.
  - cbn [andb orb].
    induction (union [lit "screen"; lit "all"] media) as [|m ms IH];
      [reflexivity|].
    cbn [List.map existsb]. now rewrite forallb_app, link_rel_matches, He.
Qed.

Lemma extractStylesheets_any_media_witness :
  extractStylesheets (Cheerio.load Sample.links) [lit "tv"; lit "screen"]
  = Some (List.map (fun x => attribs x !! lit "href")
            (List.filter is_stylesheet_link Sample.links)).
Proof.
  apply (extractStylesheets_any_media Sample.links [lit "tv"; lit "screen"]).
  repeat constructor.
Defined.

(** * Shared nodes *)

(** X22: a rule object that the array lists twice is filtered twice,
    the second time on the selectors that the first filtering has
    left and in the state that it has left the RegExp objects in; the
    result lists the rule twice, or not at all when the second
    filtering keeps no selector. *)
Theorem filterUnusedRules_shared_rule (doms : list dom)
    (ignore : list ignore_entry) (fuel : nat) (h : store)
    (st st1 st2 : gmap loc nat) (l : loc)
    (s v1 v2 : list jsstring) (d : list declaration) :
  h !! l = Some (RuleNode s d) ->
  filterUnusedSelectors doms s ignore st = (Ok v1, st1) ->
  filterUnusedSelectors doms v1 ignore st1 = (Ok v2, st2) ->
  filterUnusedRules (S fuel) doms [l; l] ignore h st
  = Returns (match v2 with [] => [] | _ => [l; l] end)
      (<[l := RuleNode v2 d]> h) st2.
Proof.
  intros Hl Hv1 Hv2. simpl. unfold visit at 1. rewrite Hl, Hv1.
  unfold set_selectors at 1. rewrite Hl. unfold visit.
  rewrite lookup_insert_eq, Hv2.
  unfold set_selectors. rewrite lookup_insert_eq, insert_insert_eq.
  unfold survives. rewrite lookup_insert_eq. now destruct v2.
Qed.

Lemma filterUnusedRules_shared_rule_witness :
  filterUnusedRules 1 [] [1%positive; 1%positive] [More.dot_bar_g]
    More.bar_sheet ∅
  = Returns [] (<[1%positive := RuleNode [] []]> More.bar_sheet)
      {[9%positive := O]}.
Proof.
  apply (filterUnusedRules_shared_rule [] [More.dot_bar_g] 0 More.bar_sheet
           ∅ {[9%positive := 4]} {[9%positive := O]} 1%positive
           [lit ".bar"] [lit ".bar"] [] []).
  - reflexivity.
  - vm_compute. reflexivity.
  - vm_compute. reflexivity.
Defined.
